(** * mapaEmpatia: the project chat server (server.js)

    A shallow embedding of the retrieval and answer logic of [server.js]:
    [scoreProject], [getTopContext] and the [POST /api/chat] handler, with the
    JavaScript built-ins they rely on ([split], [match] on an escaped
    [RegExp], [includes], [filter(Boolean)], [join], [sort], [slice], template
    literals) written out over lists of UTF-16 code units.

    [String.prototype.toLowerCase] is a host function defined by the Unicode
    tables; it is a parameter of the development.  The concrete instance
    [toLowerCaseAscii] (exact on strings of ASCII code units) is used wherever
    a closed example is evaluated. *)

From Stdlib Require Import ZArith QArith Lia DecimalString.
From stdpp Require Import base numbers option list sorting strings.

Local Open Scope Z_scope.

(** ** JavaScript strings *)

Definition codeunit := Z.
Definition jsstring := list codeunit.

(** The code units of a literal of the source, which is UTF-8 text: one-,
    two- and three-byte sequences give one code unit each (the source has no
    character outside the basic plane). *)
Fixpoint utf16 (bytes : list Z) : jsstring :=
  match bytes with
  | [] => []
  | b :: r =>
      if b <? 128 then b :: utf16 r
      else if b <? 224 then
        match r with
        | b2 :: r' => ((b - 192) * 64 + (b2 - 128)) :: utf16 r'
        | [] => [b]
        end
      else
        match r with
        | b2 :: b3 :: r' =>
            ((b - 224) * 4096 + (b2 - 128) * 64 + (b3 - 128)) :: utf16 r'
        | _ => [b]
        end
  end.

Definition js (s : string) : jsstring :=
  utf16 ((fun a => Z.of_N (Ascii.N_of_ascii a)) <$> String.list_ascii_of_string s).

(** The double quote and the line feed, which a literal here cannot hold. *)
Definition dquote : jsstring := [34].
Definition nl : jsstring := [10].

(** [Number::toString] on the integers below [10^21] in absolute value,
    which are written digit by digit. *)
Definition numberToString (n : Z) : jsstring :=
  js (NilEmpty.string_of_int (Z.to_int n)).

(** The class [\s] of a non-unicode [RegExp]: WhiteSpace and LineTerminator. *)
Definition isWhiteSpace (c : codeunit) : bool :=
  bool_decide (c ∈ [9; 10; 11; 12; 13; 32; 160; 5760; 8232; 8233; 8239; 8287;
                    12288; 65279])
  || ((8192 <=? c) && (c <=? 8202)).

(** [s.split(/\s+/)]: the pieces between maximal runs of white space; a
    leading or trailing run leaves an empty piece, and the empty string
    splits into one empty piece.  [cur] is the piece being read, reversed;
    [inRun] tells that the previous code unit was white space. *)
Fixpoint split_ws_go (cur : jsstring) (inRun : bool) (s : jsstring)
  : list jsstring :=
  match s with
  | [] => [reverse cur]
  | c :: r =>
      if isWhiteSpace c
      then if inRun then split_ws_go cur true r
           else reverse cur :: split_ws_go [] true r
      else split_ws_go (c :: cur) false r
  end.

Definition split_ws (s : jsstring) : list jsstring := split_ws_go [] false s.

(** [s.startsWith(x)], also the matcher of a literal pattern at one index. *)
Fixpoint startsWith (x s : jsstring) : bool :=
  match x, s with
  | [], _ => true
  | _ :: _, [] => false
  | a :: x', b :: s' => (a =? b) && startsWith x' s'
  end.

(** [s.includes(x)]. *)
Fixpoint includes (s x : jsstring) : bool :=
  startsWith x s ||
  match s with
  | [] => false
  | _ :: r => includes r x
  end.

(** [s.trim()]: white space and line terminators off both ends. *)
Fixpoint trimStart (s : jsstring) : jsstring :=
  match s with
  | [] => []
  | c :: r => if isWhiteSpace c then trimStart r else s
  end.

Definition trim (s : jsstring) : jsstring :=
  reverse (trimStart (reverse (trimStart s))).

(** [l.join(sep)] on an array of strings. *)
Fixpoint join (sep : jsstring) (l : list jsstring) : jsstring :=
  match l with
  | [] => []
  | [x] => x
  | x :: r => x ++ sep ++ join sep r
  end.

(** ** The escaped regular expression of [scoreProject] *)

(** The class [[.*+?^${}()|[\]\\]] of the source: the fourteen syntax
    characters of the pattern grammar. *)
Definition isSyntaxCharacter (c : codeunit) : bool :=
  bool_decide (c ∈ [46; 42; 43; 63; 94; 36; 123; 125; 40; 41; 124; 91; 93; 92]).

(** [term.replace(/[.*+?^${}()|[\]\\]/g, '\\$&')]: a backslash before every
    syntax character. *)
Fixpoint escapeRegExp (s : jsstring) : jsstring :=
  match s with
  | [] => []
  | c :: r =>
      if isSyntaxCharacter c then 92 :: c :: escapeRegExp r
      else c :: escapeRegExp r
  end.

(** A compiled pattern of the literal fragment: the code units to match in
    sequence.  [new RegExp(p, 'g')] is modelled on the patterns made of
    pattern characters and identity escapes of syntax characters; any other
    pattern is outside the fragment ([None]). *)
Record RegExp := { re_source : list codeunit }.

Fixpoint parsePattern (p : jsstring) : option (list codeunit) :=
  match p with
  | [] => Some []
  | c :: r =>
      if c =? 92 then
        match r with
        | d :: r' =>
            if isSyntaxCharacter d then cons d <$> parsePattern r' else None
        | [] => None
        end
      else if isSyntaxCharacter c then None
      else cons c <$> parsePattern r
  end.

Definition RegExp_new (p : jsstring) : option RegExp :=
  Build_RegExp <$> parsePattern p.

(** [RegExpBuiltinExec] without the sticky flag: the suffix of the input at
    the leftmost index where the pattern matches. *)
Fixpoint regExpExec (re : RegExp) (s : jsstring) : option jsstring :=
  if startsWith (re_source re) s then Some s
  else match s with
       | [] => None
       | _ :: r => regExpExec re r
       end.

(** The loop of [RegExp.prototype[Symbol.match]] for a global pattern: exec,
    record the match, move [lastIndex] to its end (one further after an empty
    match), until exec fails.  [s] is the input from [lastIndex] on. *)
Fixpoint matchLoop (fuel : nat) (re : RegExp) (s : jsstring) : list jsstring :=
  match fuel with
  | O => []
  | S n =>
      match regExpExec re s with
      | None => []
      | Some s' =>
          re_source re ::
          match re_source re, s' with
          | [], [] => []
          | [], _ :: r => matchLoop n re r
          | _ :: _, _ => matchLoop n re (drop (length (re_source re)) s')
          end
      end
  end.

(** [text.match(re)]: the array of matches, or [null] when there is none. *)
Definition String_match (text : jsstring) (re : RegExp) : option (list jsstring) :=
  match matchLoop (S (S (length text))) re text with
  | [] => None
  | ms => Some ms
  end.

(** [(text.match(new RegExp(escaped, 'g')) || []).length]. *)
Definition occur (term text : jsstring) : nat :=
  match RegExp_new (escapeRegExp term) with
  | Some re => length (default [] (String_match text re))
  | None => O
  end.

(** ** Project records *)

(** The records of [data/projects.json].  A member that holds a string or a
    number may be absent ([undefined], here [None]); [progress] is read on
    the integers; an absent [tags] or [documents] is the empty array, which
    is what [project.tags || []] and [project.documents || []] make of it. *)
Record Responsible := { resp_name : option jsstring }.
Record Document := { title : option jsstring }.

Record Project := {
  name : option jsstring;
  description : option jsstring;
  status : option jsstring;
  progress : option Z;
  responsible : option Responsible;
  lastUpdate : option jsstring;
  tags : list jsstring;
  documents : list Document
}.

(** [Boolean(v)] for a string member: present and not empty. *)
Definition truthy (v : option jsstring) : bool :=
  match v with
  | Some (_ :: _) => true
  | _ => false
  end.

(** [fields.filter(Boolean)]. *)
Definition filterBoolean (fields : list (option jsstring)) : list jsstring :=
  omap (fun v => if truthy v then v else None) fields.

(** [(project.responsible || {}).name]. *)
Definition responsibleName (p : Project) : option jsstring :=
  responsible p ≫= resp_name.

Definition fields (p : Project) : list (option jsstring) :=
  [name p; description p; status p; responsibleName p]
  ++ (Some <$> tags p) ++ (title <$> documents p).

(** ** Arrays *)

Section Arrays.
Context {A : Type}.

(** [l.sort(cmp)].  The language requires the sort to be stable and, for a
    consistent comparator, fixes the result: [x] goes before [y] when
    [cmp x y < 0], and elements that compare equal keep their order.  The
    embedding inserts each element, from the last to the first, in front
    of the first element it does not have to follow. *)
Fixpoint sort_insert (cmp : A -> A -> Z) (x : A) (l : list A) : list A :=
  match l with
  | [] => [x]
  | y :: l' => if cmp x y <=? 0 then x :: l else y :: sort_insert cmp x l'
  end.

Definition Array_sort (cmp : A -> A -> Z) (l : list A) : list A :=
  foldr (sort_insert cmp) [] l.

(** [l.slice(start, end)]: a negative bound counts from the end of the
    array, and both bounds are clamped to it. *)
Definition Array_slice (start stop : Z) (l : list A) : list A :=
  let len := Z.of_nat (length l) in
  let k := if start <? 0 then Z.max (len + start) 0 else Z.min start len in
  let final := if stop <? 0 then Z.max (len + stop) 0 else Z.min stop len in
  take (Z.to_nat (final - k)) (drop (Z.to_nat k) l).
End Arrays.

(** The objects [{ p, s }] that [getTopContext] sorts. *)
Module Scored.
Record t := mk { p : Project; s : nat }.
End Scored.

(** ** Requests, replies and the provider *)

(** The values a member of the request body can hold; objects and arrays
    are not looked into. *)
Inductive JsValue :=
| JUndefined
| JNull
| JBoolean (b : bool)
| JNumber (n : Z)
| JString (s : jsstring)
| JObject.

Record ChatBody := { message : JsValue; history : JsValue }.

(** [req.body] is absent when the request carried no JSON. *)
Record Request := { body : option ChatBody }.

(** The [kpis] member of a reply. *)
Module Kpis.
Record t := mk {
  status : option jsstring;
  progress : option Z;
  docs : nat;
  lastUpdate : option jsstring
}.
End Kpis.

Inductive Json :=
| ErrorJson (error : jsstring)
| ChatJson (reply : jsstring) (kpis : option Kpis.t) (usedModel : jsstring).

Record Response := { statusCode : Z; json : Json }.

(** The generation provider: one request, answered or rejected. *)
Record ChatMessage := { role : jsstring; content : jsstring }.

Record CompletionRequest := {
  model : jsstring;
  messages : list ChatMessage;
  temperature : Q;
  max_tokens : Z
}.

Record Message := { msg_content : option jsstring }.
Record Choice := { choice_message : option Message }.
Record Completion := { choices : option (list Choice) }.

(** What the call of the provider or the reading of its answer throws. *)
Inductive Failure :=
| NetworkError
| HttpStatus (code : Z)
| MalformedResponse
| Timeout
| TypeError.

(** An answer that line 98 cannot read: no completion at all
    ([completion.choices] throws), or a first choice whose content is
    neither absent nor a string ([content?.trim()] finds no [trim]). *)
Inductive Unusable :=
| NoCompletion
| NumberContent (n : Z)
| BooleanContent (b : bool)
| ObjectContent.

(** The awaited call resolves with a completion whose content, where there
    is one, is a string; or it is rejected; or it resolves with an answer
    that cannot be read. *)
Inductive ProviderOutcome :=
| Resolves (c : Completion)
| Rejects (err : Failure)
| ResolvesUnusable (v : Unusable).

(** What [await] hands back to the handler. *)
Inductive Resolved :=
| Usable (c : Completion)
| NotUsable (v : Unusable).

(** What the handler does besides answering. *)
Inductive Event :=
| Ranked (query : jsstring) (k : Z)
| CompletionCreated (req : CompletionRequest)
| ConsoleError (err : Failure).

(** A computation that leaves a trace and returns or throws. *)
Inductive Outcome (A : Type) :=
| Returned (a : A)
| Thrown (err : Failure).
Arguments Returned {A} a.
Arguments Thrown {A} err.

Definition M (A : Type) : Type := (list Event * Outcome A)%type.

#[global] Instance M_ret : MRet M := fun A a => ([], Returned a).

#[global] Instance M_bind : MBind M := fun A B f m =>
  match m with
  | (tr, Returned a) => let '(tr', o) := f a in (tr ++ tr', o)
  | (tr, Thrown err) => (tr, Thrown err)
  end.

Definition emit (e : Event) : M unit := ([e], Returned ()).

Definition throw {A} (err : Failure) : M A := ([], Thrown err).

(** [try { m } catch (err) { h err }]. *)
Definition try_catch {A} (m : M A) (h : Failure -> M A) : M A :=
  match m with
  | (tr, Returned a) => (tr, Returned a)
  | (tr, Thrown err) => let '(tr', o) := h err in (tr ++ tr', o)
  end.

(** A string member inside a template literal. *)
Definition interpolate (v : option jsstring) : jsstring :=
  default (js "undefined") v.

(** [v || fallback] for a string member. *)
Definition orElse (v : option jsstring) (fallback : jsstring) : jsstring :=
  match v with
  | Some (c :: s) => c :: s
  | _ => fallback
  end.

(** [p.progress || 'N/D'] inside the template. *)
Definition progressOr (v : option Z) (fallback : jsstring) : jsstring :=
  match v with
  | Some n => if n =? 0 then fallback else numberToString n
  | None => fallback
  end.

(** [(p.responsible && p.responsible.name)]. *)
Definition responsibleAndName (p : Project) : option jsstring :=
  match responsible p with
  | Some r => resp_name r
  | None => None
  end.

(** [(p.documents || []).map(d => d.title).join(', ')]; [join] writes an
    absent element as the empty string. *)
Definition documentTitles (p : Project) : jsstring :=
  join (js ", ") ((fun d => default [] (title d)) <$> documents p).

(** The callback of [contextProjects.map((p, i) => ...)]. *)
Definition projectSnippet (p : Project) (i : nat) : jsstring :=
  js "#" ++ numberToString (Z.of_nat i + 1) ++ js " " ++ interpolate (name p)
  ++ nl ++ js "Estado: " ++ interpolate (status p)
  ++ nl ++ js "Avance: " ++ progressOr (progress p) (js "N/D") ++ js "%"
  ++ nl ++ js "Responsable: " ++ orElse (responsibleAndName p) (js "N/D")
  ++ nl ++ js "Última actualización: " ++ orElse (lastUpdate p) (js "N/D")
  ++ nl ++ js "Documentos: " ++ orElse (Some (documentTitles p)) (js "—")
  ++ nl ++ js "Descripción: " ++ interpolate (description p).

Definition projectSnippets (contextProjects : list Project) : jsstring :=
  join (nl ++ nl) (imap (fun i p => projectSnippet p i) contextProjects).

Definition system : jsstring :=
  js "Eres un asistente de COTRAFA SOCIAL. Responde en español, de forma concisa y útil. Si la pregunta no está clara, pide aclaración breve. Usa el siguiente contexto de proyectos solo si es relevante. Nunca inventes datos fuera del contexto y si no aparece, dilo. Si procede, incluye un mini resumen con Estado, Responsable y Última actualización.".

(** The reply of the path without a key, for a top match. *)
Definition localReply (top : Project) : jsstring :=
  js "Según el contexto, el proyecto " ++ dquote ++ js "+"
  ++ interpolate (name top) ++ js "+" ++ dquote ++ js " está " ++ dquote
  ++ interpolate (status top) ++ dquote ++ js ". Responsable: "
  ++ orElse (responsibleAndName top) (js "N/D")
  ++ js ". Última actualización: " ++ orElse (lastUpdate top) (js "N/D")
  ++ js ".".

Definition noLocalData : jsstring := js "No hay datos locales para responder.".

(** [top ? { status, progress, docs, lastUpdate } : null]. *)
Definition kpisOf (top : option Project) : option Kpis.t :=
  (fun t => Kpis.mk (status t) (progress t) (length (documents t)) (lastUpdate t))
    <$> top.

(** The user turn sent to the provider. *)
Definition userContent (message : jsstring) (contextProjects : list Project)
  : jsstring :=
  js "Pregunta: " ++ message ++ nl ++ nl ++ js "Contexto de proyectos:" ++ nl
  ++ orElse (Some (projectSnippets contextProjects)) (js "—").

Definition completionRequest (message : jsstring) (contextProjects : list Project)
  : CompletionRequest :=
  {| model := js "gpt-4o-mini";
     messages := [ {| role := js "system"; content := system |};
                   {| role := js "user";
                      content := userContent message contextProjects |} ];
     temperature := 0.2%Q;
     max_tokens := 300 |}.

(** [completion.choices?.[0]?.message?.content?.trim()]. *)
Definition completionText (c : Completion) : option jsstring :=
  match choices c with
  | Some (first :: _) =>
      match choice_message first with
      | Some m => trim <$> msg_content m
      | None => None
      end
  | _ => None
  end.

Section Server.

(** [String.prototype.toLowerCase]. *)
Variable toLowerCase : jsstring -> jsstring.

Definition searchableText (p : Project) : jsstring :=
  toLowerCase (join [32] (filterBoolean (fields p))).

(** The body of the [for ... of] loop, as a step on the running score. *)
Definition scoreStep (text : jsstring) (score : nat) (term : jsstring) : nat :=
  match term with
  | [] => score                        (* [if (!term) continue] *)
  | _ :: _ => (score + occur term text)%nat
  end.

Definition scoreProject (query : jsstring) (project : Project) : nat :=
  let q := toLowerCase query in
  let text := searchableText project in
  let score := foldl (scoreStep text) O (split_ws q) in
  match name project with
  | Some (c :: n) =>
      if includes q (toLowerCase (c :: n)) then (score + 3)%nat else score
  | _ => score
  end.

(** The catalog loaded at start-up: the global [projects]. *)
Variable projects : list Project.

(** [getTopContext(query, k)]; [k] is 3 when the caller leaves it out. *)
Definition getTopContext (query : jsstring) (k : Z) : list Project :=
  Scored.p <$>
    Array_slice 0 k
      (Array_sort (fun a b => Z.of_nat (Scored.s b) - Z.of_nat (Scored.s a))
         ((fun p => Scored.mk p (scoreProject query p)) <$> projects)).

(** ** The chat endpoint *)

(** The configured credential and the provider behind the SDK. *)
Variable OPENAI_API_KEY : jsstring.
Variable provider : CompletionRequest -> ProviderOutcome.

(** [await openai.chat.completions.create(req)]. *)
Definition createCompletion (req : CompletionRequest) : M Resolved :=
  emit (CompletionCreated req) ;;
  match provider req with
  | Resolves c => mret (Usable c)
  | Rejects err => throw err
  | ResolvesUnusable v => mret (NotUsable v)
  end.

(** [completion.choices?.[0]?.message?.content?.trim()
     || 'No pude generar una respuesta.']. *)
Definition completionReply (completion : Resolved) : M jsstring :=
  match completion with
  | Usable c =>
      mret (orElse (completionText c) (js "No pude generar una respuesta."))
  | NotUsable _ => throw TypeError
  end.

(** [const { message, history } = req.body || {}]. *)
Definition messageOf (req : Request) : JsValue :=
  match body req with
  | Some b => message b
  | None => JUndefined
  end.

(** [app.post('/api/chat', ...)]: the trace and the response sent. *)
Definition api_chat (req : Request) : M Response :=
  try_catch
    (match messageOf req with
     | JString (c :: m) =>
         let message := c :: m in
         emit (Ranked message 4) ;;
         let contextProjects := getTopContext message 4 in
         let top := head contextProjects in
         match OPENAI_API_KEY with
         | [] =>
             let reply :=
               match top with
               | Some t => localReply t
               | None => noLocalData
               end in
             mret {| statusCode := 200;
                     json := ChatJson reply (kpisOf top) (js "local-fallback") |}
         | _ :: _ =>
             completion ← createCompletion
                            (completionRequest message contextProjects) ;
             text ← completionReply completion ;
             mret {| statusCode := 200;
                     json := ChatJson text (kpisOf top) (js "gpt-4o-mini") |}
         end
     | _ =>
         (* [!message || typeof message !== 'string'] *)
         mret {| statusCode := 400; json := ErrorJson (js "Mensaje inválido") |}
     end)
    (fun err =>
       emit (ConsoleError err) ;;
       mret {| statusCode := 500;
               json := ErrorJson (js "Fallo interno de chat") |}).

End Server.

(** [toLowerCase] on strings of ASCII code units: the letters [A]-[Z] move to
    [a]-[z], every other code unit stays. *)
Definition lowerUnit (c : codeunit) : codeunit :=
  if (65 <=? c) && (c <=? 90) then c + 32 else c.

Definition toLowerCaseAscii (s : jsstring) : jsstring := lowerUnit <$> s.

(** [toLowerCase] on strings of ASCII and Greek letters, digits and spaces.
    The capital sigma becomes the final sigma when a letter comes before it
    and none comes after it, and the small sigma otherwise: the mapping of a
    code unit depends on its neighbours. *)
Definition isLetter (c : codeunit) : bool :=
  ((65 <=? c) && (c <=? 90)) || ((97 <=? c) && (c <=? 122))
  || ((913 <=? c) && (c <=? 929)) || ((931 <=? c) && (c <=? 937))
  || ((945 <=? c) && (c <=? 969)).

Fixpoint toLowerCaseSigma_go (afterLetter : bool) (s : jsstring) : jsstring :=
  match s with
  | [] => []
  | c :: r =>
      let beforeLetter := match r with d :: _ => isLetter d | [] => false end in
      (if c =? 931 then
         if afterLetter && negb beforeLetter then 962 else 963
       else if (65 <=? c) && (c <=? 90) then c + 32
       else if (913 <=? c) && (c <=? 937) then c + 32
       else c)
      :: toLowerCaseSigma_go (isLetter c) r
  end.

Definition toLowerCaseSigma (s : jsstring) : jsstring :=
  toLowerCaseSigma_go false s.

(** ** The score as the specification words it *)

(** [x] occurs in [s] as a contiguous substring. *)
Definition substring (x s : jsstring) : Prop := ∃ a b, s = a ++ x ++ b.

(** The query cut at every white-space code unit. *)
Fixpoint pieces (s : jsstring) : list jsstring :=
  match s with
  | [] => [[]]
  | c :: r =>
      if isWhiteSpace c then [] :: pieces r
      else match pieces r with
           | w :: ws => (c :: w) :: ws
           | [] => [[c]]
           end
  end.

(** The non-empty white-space-separated terms of a query. *)
Definition terms (q : jsstring) : list jsstring :=
  filter (fun w : jsstring => w ≠ []) (pieces q).

(** The non-overlapping occurrences of [t] in [s], read from left to right:
    wherever [t] starts the rest of the text it is counted and stepped over
    ([skip] code units of the occurrence are still to be passed). *)
Fixpoint occurrences_skip (t : jsstring) (skip : nat) (s : jsstring) : nat :=
  match s with
  | [] => O
  | _ :: r =>
      match skip with
      | S n => occurrences_skip t n r
      | O =>
          if bool_decide (t `prefix_of` s)
          then S (occurrences_skip t (length t - 1) r)
          else occurrences_skip t O r
      end
  end.

Definition occurrences (t s : jsstring) : nat := occurrences_skip t O s.

(** [x] appears somewhere in [s], decided index by index. *)
Definition appearsIn (x s : jsstring) : bool :=
  bool_decide (Exists (fun i => x `prefix_of` drop i s) (seq O (S (length s)))).

Section Score.

Variable toLowerCase : jsstring -> jsstring.

(** The sum, over the terms of the lowercased query, of their occurrences in
    the searchable text. *)
Definition termScore (query : jsstring) (p : Project) : nat :=
  sum_list_with (fun t => occurrences t (searchableText toLowerCase p))
    (terms (toLowerCase query)).

(** The score as claimed: the bonus goes to every record whose lowercase
    name appears in the lowercase query. *)
Definition claimedScore (query : jsstring) (p : Project) : nat :=
  (termScore query p +
   match name p with
   | Some n => if appearsIn (toLowerCase n) (toLowerCase query) then 3 else 0
   | None => 0
   end)%nat.

(** The score as computed: the bonus needs the name to be non-empty too. *)
Definition guardedScore (query : jsstring) (p : Project) : nat :=
  (termScore query p +
   match name p with
   | Some n =>
       if bool_decide (n ≠ []) && appearsIn (toLowerCase n) (toLowerCase query)
       then 3 else 0
   | None => 0
   end)%nat.

End Score.

(** The end index that [slice(0, k)] takes on an array of [n] elements. *)
Definition sliceEnd (k : Z) (n : nat) : nat :=
  Z.to_nat (if k <? 0 then Z.max (Z.of_nat n + k) 0 else Z.min k (Z.of_nat n)).

(** ** Appending to a field of a record *)

(** The places of a record that feed its searchable text. *)
Inductive Field :=
| FName
| FDescription
| FStatus
| FResponsible
| FTag (i : nat)
| FDocument (i : nat).

(** A string member with [t] appended; an absent member counts as empty. *)
Definition appended (t : jsstring) (v : option jsstring) : option jsstring :=
  Some (default [] v ++ t).

Definition appendTo (f : Field) (t : jsstring) (p : Project) : Project :=
  match f with
  | FName =>
      {| name := appended t (name p); description := description p;
         status := status p; progress := progress p;
         responsible := responsible p; lastUpdate := lastUpdate p;
         tags := tags p; documents := documents p |}
  | FDescription =>
      {| name := name p; description := appended t (description p);
         status := status p; progress := progress p;
         responsible := responsible p; lastUpdate := lastUpdate p;
         tags := tags p; documents := documents p |}
  | FStatus =>
      {| name := name p; description := description p;
         status := appended t (status p); progress := progress p;
         responsible := responsible p; lastUpdate := lastUpdate p;
         tags := tags p; documents := documents p |}
  | FResponsible =>
      {| name := name p; description := description p;
         status := status p; progress := progress p;
         responsible := Some {| resp_name := appended t (responsibleName p) |};
         lastUpdate := lastUpdate p;
         tags := tags p; documents := documents p |}
  | FTag i =>
      {| name := name p; description := description p;
         status := status p; progress := progress p;
         responsible := responsible p; lastUpdate := lastUpdate p;
         tags := alter (fun x => x ++ t) i (tags p); documents := documents p |}
  | FDocument i =>
      {| name := name p; description := description p;
         status := status p; progress := progress p;
         responsible := responsible p; lastUpdate := lastUpdate p;
         tags := tags p;
         documents := alter (fun d => {| title := appended t (title d) |}) i
                        (documents p) |}
  end.

(** The occurrences of a term in one field, lowercased on its own. *)
Definition fieldCount (lower : jsstring -> jsstring) (u : jsstring)
  (v : option jsstring) : nat :=
  occurrences u (lower (default [] v)).

(** [b] is [a] with something appended. *)
Definition extends (a b : option jsstring) : Prop :=
  ∃ x, default [] b = default [] a ++ x.

(** The request [{ message, history }]. *)
Definition chatRequest (message history : JsValue) : Request :=
  {| body := Some {| message := message; history := history |} |}.

(** The calls of the provider and of the ranking that a trace records. *)
Definition providerCalls (tr : list Event) : nat :=
  sum_list_with (fun e => match e with CompletionCreated _ => 1 | _ => 0 end)%nat tr.

Definition rankings (tr : list Event) : nat :=
  sum_list_with (fun e => match e with Ranked _ _ => 1 | _ => 0 end)%nat tr.

(** A completion whose first choice holds the text [s]. *)
Definition completionOf (s : jsstring) (more : list Choice) : Completion :=
  {| choices := Some ({| choice_message := Some {| msg_content := Some s |} |}
                      :: more) |}.

(** ** Sample records *)

(** The record of the end-to-end example: name, status, responsible and
    last update, nothing else. *)
Definition alpha : Project :=
  {| name := Some (js "Alpha"); description := None;
     status := Some (js "active"); progress := None;
     responsible := Some {| resp_name := Some (js "Ana") |};
     lastUpdate := Some (js "2024-01-01"); tags := []; documents := [] |}.

(** A record with a present but empty name. *)
Definition unnamed : Project :=
  {| name := Some []; description := Some (js "budget review");
     status := Some (js "active"); progress := Some 0;
     responsible := None; lastUpdate := None; tags := []; documents := [] |}.

(** A record whose progress is 0 and whose responsible name and last update
    are empty strings. *)
Definition stalled : Project :=
  {| name := Some (js "Beta"); description := Some (js "pilot");
     status := Some (js "paused"); progress := Some 0;
     responsible := Some {| resp_name := Some [] |};
     lastUpdate := Some []; tags := [js "pilot"];
     documents := [ {| title := Some (js "Plan") |} ] |}.

(** A record whose description ends in a capital sigma. *)
Definition sigma : Project :=
  {| name := Some (js "Delta"); description := Some (js "ΑΣ");
     status := Some (js "active"); progress := None;
     responsible := None; lastUpdate := None; tags := []; documents := [] |}.

(** A record with two documents that have no title. *)
Definition drafts : Project :=
  {| name := Some (js "Gamma"); description := None;
     status := Some (js "draft"); progress := Some 10;
     responsible := None; lastUpdate := None; tags := [];
     documents := [ {| title := None |}; {| title := None |} ] |}.

(** * Properties *)

(** ** Strings *)

Lemma startsWith_prefix x s : startsWith x s = true ↔ x `prefix_of` s.
Proof.
  revert s. induction x as [|a x IH]; intros [|b s]; simpl.
  - split; [intros _; apply prefix_nil | done].
  - split; [intros _; apply prefix_nil | done].
  - split; [done | intros H; by apply prefix_nil_not in H].
  - rewrite andb_true_iff, IH, Z.eqb_eq. split.
    + intros [-> H]. by apply prefix_cons.
    + intros H. split; [by apply prefix_cons_inv_1 in H | by apply prefix_cons_inv_2 in H].
Qed.

Lemma includes_substring s x : includes s x = true ↔ substring x s.
Proof.
  induction s as [|c s IH]; simpl.
  - rewrite orb_false_r, startsWith_prefix. split.
    + intros [k ->]. by exists [], k.
    + intros (a & b & H). symmetry in H.
      apply app_eq_nil in H as [-> H]. apply app_eq_nil in H as [-> _].
      apply prefix_nil.
  - rewrite orb_true_iff, startsWith_prefix, IH. split.
    + intros [[k ->] | (a & b & ->)]; [by exists [], k | by exists (c :: a), b].
    + intros (a & b & H). destruct a as [|c' a]; simpl in H.
      * left. by exists b.
      * right. injection H as -> ->. by exists a, b.
Qed.

Lemma appearsIn_substring x s : appearsIn x s = true ↔ substring x s.
Proof.
  unfold appearsIn. rewrite bool_decide_eq_true, Exists_exists. split.
  - intros (i & _ & [k Hk]). exists (take i s), k.
    by rewrite <-Hk, take_drop.
  - intros (a & b & ->). exists (length a). split.
    + apply elem_of_seq. rewrite !length_app. lia.
    + rewrite drop_app_length. by exists b.
Qed.

Lemma includes_appearsIn s x : includes s x = appearsIn x s.
Proof.
  apply eq_true_iff_eq. by rewrite includes_substring, appearsIn_substring.
Qed.

(** ** The escaped pattern matches its term literally *)

Lemma parsePattern_escapeRegExp t : parsePattern (escapeRegExp t) = Some t.
Proof.
  induction t as [|c t IH]; [done|]. simpl.
  destruct (isSyntaxCharacter c) eqn:Hc.
  - simpl. rewrite Hc, IH. done.
  - simpl. rewrite Hc. destruct (c =? 92) eqn:H92.
    + apply Z.eqb_eq in H92 as ->. done.
    + by rewrite IH.
Qed.

Lemma RegExp_new_escapeRegExp t :
  RegExp_new (escapeRegExp t) = Some {| re_source := t |}.
Proof. unfold RegExp_new. by rewrite parsePattern_escapeRegExp. Qed.

(** ** Counting matches *)

Lemma occurrences_skip_drop t k s :
  occurrences_skip t k s = occurrences_skip t O (drop k s).
Proof.
  revert k. induction s as [|c s IH]; intros [|k]; simpl; done.
Qed.

Lemma occurrences_skip_short t k s :
  (length s < length t)%nat → occurrences_skip t k s = O.
Proof.
  revert k. induction s as [|c s IH]; intros k Hlen; [done|].
  simpl in *. destruct k as [|k].
  - rewrite bool_decide_eq_false_2.
    + apply IH. lia.
    + intros Hp. apply prefix_length in Hp. simpl in Hp. lia.
  - apply IH. lia.
Qed.

Lemma regExpExec_length t s s' :
  regExpExec {| re_source := t |} s = Some s' → (length s' ≤ length s)%nat.
Proof.
  induction s as [|c s IH]; simpl.
  - destruct (startsWith t []); [|done]. by intros [= <-].
  - destruct (startsWith t (c :: s)).
    + by intros [= <-].
    + intros H. apply IH in H. simpl. lia.
Qed.

Lemma occurrences_regExpExec t s :
  t ≠ [] →
  occurrences t s =
    match regExpExec {| re_source := t |} s with
    | None => O
    | Some s' => S (occurrences t (drop (length t) s'))
    end.
Proof.
  intros Ht. unfold occurrences. induction s as [|c s IH]; simpl.
  - destruct (startsWith t []) eqn:H; [|done].
    apply startsWith_prefix, prefix_nil_inv in H. done.
  - destruct (startsWith t (c :: s)) eqn:H.
    + apply startsWith_prefix in H. rewrite bool_decide_eq_true_2 by done.
      rewrite occurrences_skip_drop. do 2 f_equal.
      destruct t as [|a t]; [done|]. simpl. by rewrite Nat.sub_0_r.
    + rewrite bool_decide_eq_false_2; [done|].
      rewrite <-startsWith_prefix. by rewrite H.
Qed.

Lemma regExpExec_prefix t s s' :
  regExpExec {| re_source := t |} s = Some s' → t `prefix_of` s'.
Proof.
  induction s as [|c s IH]; simpl.
  - destruct (startsWith t []) eqn:H; [|done].
    intros [= <-]. by apply startsWith_prefix.
  - destruct (startsWith t (c :: s)) eqn:H; [|done].
    intros [= <-]. by apply startsWith_prefix.
Qed.

Lemma matchLoop_occurrences fuel t s :
  t ≠ [] → (length s < fuel)%nat →
  length (matchLoop fuel {| re_source := t |} s) = occurrences t s.
Proof.
  intros Ht. revert s. induction fuel as [|n IH]; intros s Hlen; [lia|].
  rewrite occurrences_regExpExec by done. simpl.
  destruct (regExpExec _ s) as [s'|] eqn:He; [|done].
  pose proof (regExpExec_length _ _ _ He) as Hl.
  pose proof (prefix_length _ _ (regExpExec_prefix _ _ _ He)) as Hp.
  simpl. f_equal. destruct t as [|a t]; [done|].
  apply IH. rewrite length_drop. simpl in *. lia.
Qed.

Lemma occur_occurrences t s : t ≠ [] → occur t s = occurrences t s.
Proof.
  intros Ht. unfold occur, String_match.
  rewrite RegExp_new_escapeRegExp.
  rewrite <-(matchLoop_occurrences (S (S (length s)))) by (done || lia).
  by destruct (matchLoop _ _ s).
Qed.

(** ** Splitting the query *)

Lemma pieces_cons s : ∃ w ws, pieces s = w :: ws.
Proof.
  destruct s as [|c s]; simpl; [by eexists _, _|].
  destruct (isWhiteSpace c); [by eexists _, _|].
  destruct (pieces s); by eexists _, _.
Qed.

Lemma split_ws_go_pieces s cur inRun :
  (inRun = true → cur = []) →
  filter (λ w : jsstring, w ≠ []) (split_ws_go cur inRun s) =
  filter (λ w : jsstring, w ≠ [])
    (match pieces s with
     | w :: ws => (reverse cur ++ w) :: ws
     | [] => []
     end).
Proof.
  revert cur inRun. induction s as [|c s IH]; intros cur inRun Hrun; simpl.
  - by rewrite app_nil_r.
  - destruct (pieces_cons s) as (w & ws & Hw).
    destruct (isWhiteSpace c).
    + rewrite app_nil_r. destruct inRun.
      * rewrite Hrun by done. rewrite IH by done. rewrite Hw.
        rewrite reverse_nil. cbn [app].
        symmetry. by apply filter_cons_False; intros [].
      * rewrite !filter_cons. rewrite IH by done. by rewrite Hw.
    + rewrite IH by done. rewrite Hw.
      by rewrite reverse_cons, <-app_assoc.
Qed.

Lemma split_ws_terms q :
  filter (λ w : jsstring, w ≠ []) (split_ws q) = terms q.
Proof.
  unfold split_ws, terms. rewrite split_ws_go_pieces by done.
  by destruct (pieces q).
Qed.

Lemma foldl_scoreStep text l acc :
  foldl (scoreStep text) acc l =
  (acc + sum_list_with (λ t, occurrences t text)
           (filter (λ w : jsstring, w ≠ []) l))%nat.
Proof.
  revert acc. induction l as [|t l IH]; intros acc; [simpl; lia|].
  cbn [foldl]. rewrite IH. destruct t as [|c t]; unfold scoreStep.
  - by rewrite filter_cons_False by (by intros []).
  - rewrite filter_cons_True by done.
    rewrite occur_occurrences by done.
    change (sum_list_with ?f (?x :: ?k)) with (f x + sum_list_with f k)%nat.
    lia.
Qed.

(** ** The score *)

Lemma scoreProject_guardedScore lower q p :
  scoreProject lower q p = guardedScore lower q p.
Proof.
  unfold scoreProject, guardedScore, termScore.
  rewrite foldl_scoreStep, split_ws_terms. simpl.
  destruct (name p) as [[|c n]|]; simpl; try lia.
  rewrite includes_appearsIn.
  by destruct (appearsIn _ _).
Qed.

(** C1 (amended): the score is the sum, over the non-empty
    white-space-separated terms of the lowercased query, of the
    non-overlapping left-to-right occurrences of the term in the lowercased
    searchable text, plus 3 when the record's name is present, not empty, and
    its lowercase form appears in the lowercased query; no bonus otherwise. *)
Theorem scoreProject_terms_and_guarded_bonus lower query p :
  scoreProject lower query p = guardedScore lower query p
  ∧ ((∃ n, name p = Some n ∧ n ≠ [] ∧ substring (lower n) (lower query)) →
     scoreProject lower query p = (termScore lower query p + 3)%nat)
  ∧ (¬ (∃ n, name p = Some n ∧ n ≠ [] ∧ substring (lower n) (lower query)) →
     scoreProject lower query p = termScore lower query p).
Proof.
  assert (Hscore : scoreProject lower query p = guardedScore lower query p).
  { unfold scoreProject, guardedScore, termScore.
    rewrite foldl_scoreStep, split_ws_terms. cbn [Nat.add].
    destruct (name p) as [[|c n]|]; [|rewrite includes_appearsIn|]; simpl.
    - lia.
    - by destruct (appearsIn _ _).
    - lia. }
  split; [done|]. rewrite Hscore. unfold guardedScore.
  split.
  - intros (n & -> & Hn & Hsub). apply appearsIn_substring in Hsub.
    by rewrite Hsub, bool_decide_eq_true_2.
  - intros Hno. destruct (name p) as [n|]; [|lia].
    destruct (bool_decide (n ≠ []) && appearsIn (lower n) (lower query))
      eqn:Hb; [|lia].
    apply andb_true_iff in Hb as [Hn%bool_decide_eq_true Hsub].
    destruct Hno. exists n. by rewrite <-appearsIn_substring.
Qed.

(** The bonus at work: the query mentions the name of [alpha]. *)
Lemma scoreProject_terms_and_guarded_bonus_witness :
  scoreProject toLowerCaseAscii (js "status of Alpha") alpha
  = (termScore toLowerCaseAscii (js "status of Alpha") alpha + 3)%nat.
Proof.
  apply (proj1 (proj2 (scoreProject_terms_and_guarded_bonus toLowerCaseAscii
                         (js "status of Alpha") alpha))).
  exists (js "Alpha"). split; [reflexivity|]. split; [discriminate|].
  apply includes_substring. by vm_compute.
Defined.

(** C1 as claimed fails on a record whose name is the empty string: the
    empty name appears in every query, and the score carries no bonus. *)
Lemma scoreProject_unnamed_no_bonus :
  name unnamed = Some [] ∧
  substring (toLowerCaseAscii []) (toLowerCaseAscii (js "budget")) ∧
  scoreProject toLowerCaseAscii (js "budget") unnamed = 1%nat ∧
  claimedScore toLowerCaseAscii (js "budget") unnamed = 4%nat ∧
  scoreProject toLowerCaseAscii (js "budget") unnamed
  ≠ claimedScore toLowerCaseAscii (js "budget") unnamed.
Proof.
  split; [done|]. split; [by exists [], (toLowerCaseAscii (js "budget"))|].
  split; [by vm_compute|]. split; by vm_compute.
Qed.

(** ** Sorting and slicing *)

Section ArrayFacts.
Context {A : Type}.
Implicit Types (cmp : A → A → Z) (l : list A).

Lemma sort_insert_Permutation cmp x l : sort_insert cmp x l ≡ₚ x :: l.
Proof.
  induction l as [|y l IH]; simpl; [done|].
  destruct (cmp x y <=? 0); [done|].
  rewrite IH. apply Permutation_swap.
Qed.

Lemma Array_sort_Permutation cmp l : Array_sort cmp l ≡ₚ l.
Proof.
  induction l as [|x l IH]; simpl; [done|].
  by rewrite sort_insert_Permutation, IH.
Qed.

Lemma Array_sort_length cmp l : length (Array_sort cmp l) = length l.
Proof. by rewrite Array_sort_Permutation. Qed.

Lemma Array_sort_fmap {B} (f : B → A) cmp (l : list B) :
  Array_sort cmp (f <$> l) = f <$> Array_sort (λ a b, cmp (f a) (f b)) l.
Proof.
  unfold Array_sort.
  induction l as [|x l IH]; [done|]. rewrite fmap_cons. cbn [foldr]. rewrite IH.
  generalize (foldr (sort_insert (λ a b, cmp (f a) (f b))) [] l). intros k.
  induction k as [|y k IHk]; [done|]. rewrite fmap_cons. cbn [sort_insert].
  destruct (cmp (f x) (f y) <=? 0); [done|]. by rewrite IHk.
Qed.

Lemma Array_slice_0 k l : Array_slice 0 k l = take (sliceEnd k (length l)) l.
Proof.
  unfold Array_slice, sliceEnd. simpl.
  replace (Z.min 0 (Z.of_nat (length l))) with 0 by lia.
  by rewrite Z.sub_0_r.
Qed.

Lemma filter_take_prefix (P : A → Prop) `{!∀ x, Decision (P x)} n l :
  filter P (take n l) `prefix_of` filter P l.
Proof.
  rewrite <-(take_drop n l) at 2. rewrite filter_app. by apply prefix_app_r.
Qed.

Lemma sublist_filter_mono (P : A → Prop) `{!∀ x, Decision (P x)} l k :
  l `sublist_of` k → filter P l `sublist_of` filter P k.
Proof.
  induction 1 as [|x l k _ IH|x l k _ IH]; [done| |].
  - rewrite !filter_cons. destruct (decide (P x)); [by constructor|done].
  - rewrite filter_cons. destruct (decide (P x)); [by constructor|done].
Qed.

(** Sorting by a key, largest first, keeps every class of equal keys in its
    order. *)
Lemma sort_insert_filter (key : A → nat) v x l :
  filter (λ a, key a = v)
    (sort_insert (λ a b, Z.of_nat (key b) - Z.of_nat (key a)) x l) =
  filter (λ a, key a = v) (x :: l).
Proof.
  induction l as [|y l IH]; simpl; [done|].
  destruct (_ <=? 0) eqn:Hc; [done|]. apply Z.leb_gt in Hc.
  rewrite filter_cons, IH, !filter_cons.
  destruct (decide (key y = v)), (decide (key x = v)); try done. lia.
Qed.

Lemma Array_sort_filter (key : A → nat) v l :
  filter (λ a, key a = v)
    (Array_sort (λ a b, Z.of_nat (key b) - Z.of_nat (key a)) l) =
  filter (λ a, key a = v) l.
Proof.
  induction l as [|x l IH]; simpl; [done|].
  rewrite sort_insert_filter, !filter_cons. by rewrite IH.
Qed.

(** The sorted array is in descending order of the key. *)
Lemma sort_insert_descending (key : A → nat) x l :
  StronglySorted (λ a b, key b ≤ key a)%nat l →
  StronglySorted (λ a b, key b ≤ key a)%nat
    (sort_insert (λ a b, Z.of_nat (key b) - Z.of_nat (key a)) x l).
Proof.
  induction 1 as [|y l Hs IH Hy]; simpl.
  - repeat constructor.
  - destruct (_ <=? 0) eqn:Hc.
    + apply Z.leb_le in Hc. constructor; [by constructor|].
      constructor; [lia|]. eapply Forall_impl; [done|]. simpl. lia.
    + apply Z.leb_gt in Hc. constructor; [done|].
      rewrite sort_insert_Permutation. constructor; [lia|done].
Qed.

Lemma Array_sort_descending (key : A → nat) l :
  StronglySorted (λ a b, key b ≤ key a)%nat
    (Array_sort (λ a b, Z.of_nat (key b) - Z.of_nat (key a)) l).
Proof.
  induction l as [|x l IH]; simpl; [constructor|].
  by apply sort_insert_descending.
Qed.

(** A descending list is fixed by its classes of equal keys: whatever stable
    algorithm the engine runs, the sorted array is the one of [Array_sort]. *)
Lemma descending_stable_unique (key : A → nat) l1 l2 :
  StronglySorted (λ a b, key b ≤ key a)%nat l1 →
  StronglySorted (λ a b, key b ≤ key a)%nat l2 →
  (∀ v, filter (λ a, key a = v) l1 = filter (λ a, key a = v) l2) →
  l1 = l2.
Proof.
  intros Hs1. revert l2.
  induction Hs1 as [|x r1 Hs1 IH Hx]; intros l2 Hs2 Hf.
  - destruct l2 as [|y r2]; [done|].
    specialize (Hf (key y)). by rewrite filter_nil, filter_cons_True in Hf.
  - destruct Hs2 as [|y r2 Hs2 Hy].
    { specialize (Hf (key x)). by rewrite filter_nil, filter_cons_True in Hf. }
    assert (Hkey : key x = key y).
    { apply Nat.le_antisymm.
      - pose proof (Hf (key x)) as Hv. rewrite filter_cons_True in Hv by done.
        assert (x ∈ filter (λ a, key a = key x) (y :: r2)) as Hin
          by (rewrite <-Hv; left).
        apply list_elem_of_filter in Hin as [_ [->|Hin]%elem_of_cons]; [done|].
        rewrite Forall_forall in Hy. by apply Hy.
      - pose proof (Hf (key y)) as Hv.
        rewrite (filter_cons_True _ y) in Hv by done.
        assert (y ∈ filter (λ a, key a = key y) (x :: r1)) as Hin
          by (rewrite Hv; left).
        apply list_elem_of_filter in Hin as [_ [->|Hin]%elem_of_cons]; [done|].
        rewrite Forall_forall in Hx. by apply Hx. }
    pose proof (Hf (key x)) as Hv.
    rewrite filter_cons_True, (filter_cons_True _ y) in Hv by done.
    injection Hv as -> Hv. f_equal. apply IH; [done|].
    intros v. destruct (decide (key y = v)) as [<-|Hne]; [done|].
    specialize (Hf v). by rewrite !filter_cons_False in Hf.
Qed.

Lemma Array_sort_unique (key : A → nat) l sorted :
  StronglySorted (λ a b, key b ≤ key a)%nat sorted →
  (∀ v, filter (λ a, key a = v) sorted = filter (λ a, key a = v) l) →
  sorted = Array_sort (λ a b, Z.of_nat (key b) - Z.of_nat (key a)) l.
Proof.
  intros Hs Hf. apply (descending_stable_unique key); [done| |].
  - apply Array_sort_descending.
  - intros v. by rewrite Hf, Array_sort_filter.
Qed.

End ArrayFacts.

(** [getTopContext] is the first [sliceEnd k n] records of the catalog sorted
    by score, largest first. *)
Lemma getTopContext_take lower projects query k :
  getTopContext lower projects query k =
  take (sliceEnd k (length projects))
    (Array_sort (λ a b, Z.of_nat (scoreProject lower query b)
                        - Z.of_nat (scoreProject lower query a)) projects).
Proof.
  unfold getTopContext.
  rewrite Array_slice_0, Array_sort_length, length_fmap.
  rewrite (Array_sort_fmap (λ p, Scored.mk p (scoreProject lower query p))).
  simpl. rewrite <-fmap_take, <-list_fmap_compose.
  rewrite <-(list_fmap_id (take _ _)) at 2. by apply list_fmap_ext.
Qed.

Lemma getTopContext_length lower projects query k :
  length (getTopContext lower projects query k) = sliceEnd k (length projects).
Proof.
  rewrite getTopContext_take, length_take, Array_sort_length.
  unfold sliceEnd. destruct (k <? 0) eqn:Hk; lia.
Qed.

Lemma getTopContext_filter_prefix lower projects query k v :
  filter (λ p, scoreProject lower query p = v)
    (getTopContext lower projects query k)
  `prefix_of` filter (λ p, scoreProject lower query p = v) projects.
Proof.
  rewrite getTopContext_take.
  rewrite <-(Array_sort_filter (scoreProject lower query) v projects).
  apply filter_take_prefix.
Qed.

(** C2: the ranking is stable on ties.  For every score, the records of the
    result with that score are, in order, the first records of the catalog
    with that score; so two records of equal score that follow one another in
    the result follow one another, in the same order, in the catalog. *)
Theorem getTopContext_stable lower projects query k :
  (∀ v, filter (λ p, scoreProject lower query p = v)
          (getTopContext lower projects query k)
        `prefix_of` filter (λ p, scoreProject lower query p = v) projects)
  ∧ (∀ a b, scoreProject lower query a = scoreProject lower query b →
       [a; b] `sublist_of` getTopContext lower projects query k →
       [a; b] `sublist_of` projects).
Proof.
  split; [intros v; apply getTopContext_filter_prefix|].
  intros a b Hab Hsub.
  pose proof (getTopContext_filter_prefix lower projects query k
                (scoreProject lower query a)) as [rest Hpre].
  apply (sublist_filter_mono (λ p, scoreProject lower query p
                                   = scoreProject lower query a)) in Hsub.
  rewrite !filter_cons_True, filter_nil in Hsub by done.
  etrans; [|apply (sublist_filter (λ p, scoreProject lower query p
                                        = scoreProject lower query a))].
  rewrite Hpre. by apply sublist_inserts_r.
Qed.

(** Two records of equal score come out in their catalog order. *)
Lemma getTopContext_stable_witness :
  scoreProject toLowerCaseAscii (js "active") alpha
  = scoreProject toLowerCaseAscii (js "active") unnamed
  ∧ [alpha; unnamed] `sublist_of` [alpha; unnamed].
Proof.
  split; [by vm_compute|].
  apply (proj2 (getTopContext_stable toLowerCaseAscii [alpha; unnamed]
                  (js "active") 4) alpha unnamed); [by vm_compute|].
  vm_compute. reflexivity.
Defined.

(** C3 (amended): with [k = 0] the result is empty, and on an empty catalog
    it is empty for every [k]; with a negative [k] the result is the first
    [max (n + k) 0] records of the ranking of the [n] catalog records, the
    catalog sorted by score, so it is empty only when [-k >= n]. *)
Theorem getTopContext_empty lower projects query :
  getTopContext lower projects query 0 = [] ∧
  (∀ k, getTopContext lower [] query k = []) ∧
  (∀ k, k < 0 →
     length (getTopContext lower projects query k)
     = Z.to_nat (Z.of_nat (length projects) + k)) ∧
  (∀ k, k < 0 →
     getTopContext lower projects query k
     = take (Z.to_nat (Z.max (Z.of_nat (length projects) + k) 0))
         (Array_sort (λ a b, Z.of_nat (scoreProject lower query b)
                             - Z.of_nat (scoreProject lower query a))
            projects)) ∧
  (∀ k, k < 0 →
     getTopContext lower projects query k
     = take (Z.to_nat (Z.max (Z.of_nat (length projects) + k) 0))
         (getTopContext lower projects query (Z.of_nat (length projects)))) ∧
  (∀ k, k < 0 →
     getTopContext lower projects query k = [] ↔ Z.of_nat (length projects) ≤ - k).
Proof.
  assert (Hneg : ∀ k, k < 0 →
            sliceEnd k (length projects)
            = Z.to_nat (Z.max (Z.of_nat (length projects) + k) 0)).
  { intros k Hk. unfold sliceEnd. by apply Z.ltb_lt in Hk as ->. }
  split; [|split; [|split; [|split; [|split]]]].
  - apply length_zero_iff_nil. rewrite getTopContext_length.
    unfold sliceEnd. simpl. lia.
  - intros k. apply length_zero_iff_nil. rewrite getTopContext_length.
    unfold sliceEnd. simpl.
    destruct (k <? 0) eqn:Hk; [apply Z.ltb_lt in Hk|apply Z.ltb_ge in Hk]; lia.
  - intros k Hk. rewrite getTopContext_length, Hneg by done. lia.
  - intros k Hk. by rewrite getTopContext_take, Hneg.
  - intros k Hk. rewrite !getTopContext_take, Hneg by done.
    rewrite take_take. f_equal. unfold sliceEnd.
    destruct (Z.of_nat (length projects) <? 0) eqn:Hn;
      [apply Z.ltb_lt in Hn|]; lia.
  - intros k Hk. rewrite <-length_zero_iff_nil, getTopContext_length, Hneg by done.
    lia.
Qed.

(** [k = -1] on two records leaves the first record of the ranking. *)
Lemma getTopContext_empty_witness :
  -1 < 0 ∧
  getTopContext toLowerCaseAscii [alpha; unnamed] (js "Alpha") (-1)
  = take (Z.to_nat (Z.max (Z.of_nat (length [alpha; unnamed]) + -1) 0))
      (Array_sort (λ a b, Z.of_nat (scoreProject toLowerCaseAscii (js "Alpha") b)
                          - Z.of_nat (scoreProject toLowerCaseAscii (js "Alpha") a))
         [alpha; unnamed]).
Proof.
  split; [lia|].
  apply (proj1 (proj2 (proj2 (proj2 (getTopContext_empty toLowerCaseAscii
                                       [alpha; unnamed] (js "Alpha"))))) (-1)).
  lia.
Defined.

(** C3 as claimed fails for a negative [k]: [slice(0, -1)] drops the last
    record only. *)
Lemma getTopContext_negative_k_not_empty :
  -1 ≤ 0 ∧
  getTopContext toLowerCaseAscii [alpha; unnamed] (js "Alpha") (-1) = [alpha] ∧
  getTopContext toLowerCaseAscii [alpha; unnamed] (js "Alpha") (-1) ≠ [].
Proof. split; [lia|]. split; [by vm_compute|]. by vm_compute. Qed.

(** C4 (amended): the result is drawn from the catalog, each record at most
    as often as it occurs there, and is no longer than the catalog; for
    [k >= 0] it has at most [k] records. *)
Theorem getTopContext_submseteq lower projects query k :
  getTopContext lower projects query k ⊆+ projects ∧
  (length (getTopContext lower projects query k) ≤ length projects)%nat ∧
  (0 ≤ k → Z.of_nat (length (getTopContext lower projects query k)) ≤ k).
Proof.
  split; [|split].
  - rewrite getTopContext_take.
    etrans; [apply submseteq_take|]. by rewrite Array_sort_Permutation.
  - rewrite getTopContext_length. unfold sliceEnd.
    destruct (k <? 0) eqn:Hlt; [apply Z.ltb_lt in Hlt|]; lia.
  - intros Hk. rewrite getTopContext_length. unfold sliceEnd.
    destruct (k <? 0) eqn:Hlt; [apply Z.ltb_lt in Hlt|]; lia.
Qed.

(** [k = 1] on two records gives at most one. *)
Lemma getTopContext_submseteq_witness :
  0 ≤ 1 ∧
  Z.of_nat (length (getTopContext toLowerCaseAscii [alpha; unnamed]
                      (js "Alpha") 1)) ≤ 1.
Proof.
  split; [lia|].
  apply (proj2 (proj2 (getTopContext_submseteq toLowerCaseAscii
                         [alpha; unnamed] (js "Alpha") 1))).
  lia.
Defined.

(** C4 as claimed fails for a negative [k]: the result of [k = -1] on two
    records has one record, which is more than [k]. *)
Lemma getTopContext_negative_k_longer :
  ¬ (Z.of_nat (length (getTopContext toLowerCaseAscii [alpha; unnamed]
                         (js "Alpha") (-1))) ≤ -1).
Proof. vm_compute. by intros H; apply H. Qed.

(** ** Occurrences under appending and joining *)

Lemma prefix_app_short (t X Y : jsstring) :
  t `prefix_of` X ++ Y → (length t ≤ length X)%nat → t `prefix_of` X.
Proof.
  intros [k Hk] Hlen. exists (drop (length t) X).
  apply (f_equal (take (length t))) in Hk.
  rewrite take_app_le, take_app_length in Hk by done.
  rewrite <-(take_drop (length t) X) at 1. by rewrite Hk.
Qed.

Lemma prefix_cons_app_r (t X Y : jsstring) c :
  t `prefix_of` c :: X → t `prefix_of` c :: X ++ Y.
Proof. intros [r Hr]. exists (r ++ Y). by rewrite app_assoc, <-Hr. Qed.

Lemma occurrences_skip_app_le t k X Y :
  (occurrences_skip t k X ≤ occurrences_skip t k (X ++ Y))%nat.
Proof.
  revert k. induction X as [|c X IH]; intros k; [simpl; lia|].
  destruct k as [|k]; [|apply IH]. cbn [occurrences_skip app].
  destruct (decide (t `prefix_of` c :: X)) as [Hp|Hp].
  - rewrite !bool_decide_eq_true_2; [|by apply prefix_cons_app_r|done].
    apply le_n_S, IH.
  - rewrite (bool_decide_eq_false_2 _ Hp).
    destruct (decide (t `prefix_of` c :: X ++ Y)) as [Hq|Hq].
    + rewrite (bool_decide_eq_true_2 _ Hq).
      rewrite occurrences_skip_short; [lia|].
      destruct (decide (length t ≤ length (c :: X))%nat) as [Hl|Hl].
      * destruct Hp. by apply (prefix_app_short t (c :: X) Y).
      * simpl in Hl. lia.
    + rewrite (bool_decide_eq_false_2 _ Hq). apply IH.
Qed.

Lemma prefix_app_sep (t X Y : jsstring) sep :
  sep ∉ t → t `prefix_of` X ++ sep :: Y → t `prefix_of` X.
Proof.
  intros Hsep Hp. apply (prefix_app_short t X (sep :: Y)); [done|].
  destruct (decide (length t ≤ length X)%nat) as [|Hl]; [done|].
  destruct Hp as [k Hk]. destruct Hsep.
  apply list_elem_of_lookup. exists (length X).
  apply (f_equal (λ l, l !! length X)) in Hk.
  rewrite list_lookup_middle in Hk by done.
  rewrite lookup_app_l in Hk by lia. done.
Qed.

Lemma occurrences_skip_sep t sep k X Y :
  t ≠ [] → sep ∉ t → (k ≤ length X)%nat →
  occurrences_skip t k (X ++ sep :: Y)
  = (occurrences_skip t k X + occurrences t Y)%nat.
Proof.
  intros Ht Hsep. revert k. induction X as [|c X IH]; intros k Hk.
  - simpl in Hk. replace k with O by lia. cbn [app occurrences_skip].
    rewrite bool_decide_eq_false_2; [done|].
    intros [r Hr]. destruct t as [|a t]; [done|].
    injection Hr as -> _. apply Hsep. left.
  - destruct k as [|k]; [|apply IH; simpl in Hk; lia].
    cbn [occurrences_skip app].
    destruct (decide (t `prefix_of` c :: X)) as [Hp|Hp].
    + rewrite !bool_decide_eq_true_2;
        [|done|by apply prefix_cons_app_r].
      rewrite IH; [done|]. apply prefix_length in Hp. simpl in Hp. lia.
    + rewrite !bool_decide_eq_false_2; [by apply IH; lia|done|].
      intros Hq. apply Hp. by apply (prefix_app_sep t (c :: X) Y sep).
Qed.

Lemma occurrences_join t sep l :
  t ≠ [] → sep ∉ t →
  occurrences t (join [sep] l) = sum_list_with (occurrences t) l.
Proof.
  intros Ht Hsep. induction l as [|x l IH]; [done|].
  destruct l as [|y l].
  - simpl. lia.
  - change (join [sep] (x :: y :: l)) with (x ++ sep :: join [sep] (y :: l)).
    unfold occurrences at 1.
    rewrite occurrences_skip_sep by (done || lia). rewrite IH.
    change (sum_list_with ?g (x :: ?k)) with (g x + sum_list_with g k)%nat.
    done.
Qed.

(** The terms of a query hold no white space and are not empty. *)
Lemma pieces_no_whitespace s w :
  w ∈ pieces s → Forall (λ c, isWhiteSpace c = false) w.
Proof.
  revert w. induction s as [|c s IH]; intros w; simpl.
  - intros ->%list_elem_of_singleton. constructor.
  - destruct (isWhiteSpace c) eqn:Hc.
    + intros [->|Hw]%elem_of_cons; [constructor|by apply IH].
    + destruct (pieces s) as [|w0 ws]; simpl.
      * intros ->%list_elem_of_singleton. by repeat constructor.
      * intros [->|Hw]%elem_of_cons.
        -- constructor; [done|]. apply IH. left.
        -- apply IH. by right.
Qed.

Lemma terms_space_free q t : t ∈ terms q → t ≠ [] ∧ 32 ∉ t.
Proof.
  unfold terms. intros [Ht Hin]%list_elem_of_filter. split; [done|].
  intros H32. apply pieces_no_whitespace in Hin.
  rewrite Forall_forall in Hin. by apply Hin in H32.
Qed.

(** ** Monotonicity of the score *)

Section Monotone.

Variable lower : jsstring → jsstring.
Hypothesis lower_app : ∀ a b, lower (a ++ b) = lower a ++ lower b.
Hypothesis lower_space : lower [32] = [32].

Lemma lower_nil : lower [] = [].
Proof.
  pose proof (lower_app [] []) as H. simpl in H.
  apply (f_equal length) in H. rewrite length_app in H.
  apply length_zero_iff_nil. lia.
Qed.

Lemma lower_join l : lower (join [32] l) = join [32] (lower <$> l).
Proof.
  induction l as [|x l IH]; [apply lower_nil|].
  destruct l as [|y l]; [done|].
  change (join [32] (x :: y :: l)) with (x ++ [32] ++ join [32] (y :: l)).
  by rewrite !lower_app, lower_space, IH.
Qed.

Lemma sum_list_with_fmap {A B} (g : B → nat) (h : A → B) l :
  sum_list_with g (h <$> l) = sum_list_with (g ∘ h) l.
Proof.
  induction l as [|x l IH]; [done|]. rewrite fmap_cons.
  change (sum_list_with ?f (?y :: ?k)) with (f y + sum_list_with f k)%nat.
  by rewrite IH.
Qed.

Lemma filterBoolean_count u fs :
  sum_list_with (occurrences u) (lower <$> filterBoolean fs)
  = sum_list_with (fieldCount lower u) fs.
Proof.
  rewrite sum_list_with_fmap. unfold filterBoolean, fieldCount.
  induction fs as [|v fs IH]; [done|].
  change (sum_list_with ?f (?y :: ?k)) with (f y + sum_list_with f k)%nat.
  rewrite <-IH. destruct v as [[|c s]|]; [|done|].
  - by cbn; rewrite lower_nil.
  - by cbn; rewrite lower_nil.
Qed.

Lemma searchableText_count u p :
  u ≠ [] → 32 ∉ u →
  occurrences u (searchableText lower p) = sum_list_with (fieldCount lower u) (fields p).
Proof.
  intros Hu H32. unfold searchableText.
  by rewrite lower_join, occurrences_join, filterBoolean_count.
Qed.

Lemma extends_refl a : extends a a.
Proof. exists []. by rewrite app_nil_r. Qed.

Lemma extends_appended t a : extends a (appended t a).
Proof. by exists t. Qed.

Lemma fieldCount_extends u a b : extends a b → (fieldCount lower u a ≤ fieldCount lower u b)%nat.
Proof.
  intros [x Hx]. unfold fieldCount. rewrite Hx, lower_app.
  apply occurrences_skip_app_le.
Qed.

Lemma sum_fieldCount_extends u fs fs' :
  Forall2 extends fs fs' →
  (sum_list_with (fieldCount lower u) fs ≤ sum_list_with (fieldCount lower u) fs')%nat.
Proof.
  induction 1 as [|a b fs fs' Hab _ IH]; [done|].
  change (sum_list_with ?g (?x :: ?k)) with (g x + sum_list_with g k)%nat.
  pose proof (fieldCount_extends u a b Hab). lia.
Qed.

Lemma Forall2_extends_refl fs : Forall2 extends fs fs.
Proof. induction fs; constructor; [apply extends_refl|done]. Qed.

Lemma tags_alter_extends t i (l : list jsstring) :
  Forall2 extends (Some <$> l) (Some <$> alter (λ x, x ++ t) i l).
Proof.
  revert i. induction l as [|x l IH]; intros i; [constructor|].
  destruct i as [|i]; simpl.
  - constructor; [by exists t|apply Forall2_extends_refl].
  - constructor; [apply extends_refl|apply IH].
Qed.

Lemma documents_alter_extends t i (l : list Document) :
  Forall2 extends (title <$> l)
    (title <$> alter (λ d, {| title := appended t (title d) |}) i l).
Proof.
  revert i. induction l as [|x l IH]; intros i; [constructor|].
  destruct i as [|i]; simpl.
  - constructor; [apply extends_appended|apply Forall2_extends_refl].
  - constructor; [apply extends_refl|apply IH].
Qed.

Lemma fields_appendTo f t p :
  f ≠ FName → Forall2 extends (fields p) (fields (appendTo f t p)).
Proof.
  intros Hf. unfold fields.
  destruct f; try done; simpl;
    repeat (apply Forall2_cons; split;
            [first [apply extends_refl | apply extends_appended]|]);
    try apply Forall2_extends_refl.
  - apply Forall2_app; [apply tags_alter_extends|apply Forall2_extends_refl].
  - apply Forall2_app; [apply Forall2_extends_refl|apply documents_alter_extends].
Qed.

Lemma sum_list_with_le {A} (g h : A → nat) l :
  Forall (λ x, g x ≤ h x)%nat l → (sum_list_with g l ≤ sum_list_with h l)%nat.
Proof.
  induction 1 as [|x l Hx _ IH]; [done|].
  change (sum_list_with ?f (?y :: ?k)) with (f y + sum_list_with f k)%nat.
  lia.
Qed.

Lemma termScore_appendTo query f t p :
  f ≠ FName →
  (termScore lower query p ≤ termScore lower query (appendTo f t p))%nat.
Proof.
  intros Hf. unfold termScore. apply sum_list_with_le, Forall_forall.
  intros u [Hu H32]%terms_space_free.
  rewrite !searchableText_count by done.
  by apply sum_fieldCount_extends, fields_appendTo.
Qed.

Lemma guardedScore_appendTo query f t p :
  f ≠ FName →
  (guardedScore lower query p ≤ guardedScore lower query (appendTo f t p))%nat.
Proof.
  intros Hf. unfold guardedScore.
  pose proof (termScore_appendTo query f t p Hf).
  replace (name (appendTo f t p)) with (name p) by (by destruct f).
  lia.
Qed.

End Monotone.

(** C5 (amended): where lowercasing works code unit by code unit (it
    distributes over concatenation and keeps the space), appending a string,
    in particular an occurrence of a query term, to a field of the searchable
    text other than the name (description, status, responsible name, a tag, a
    document title) never decreases the score. *)
Theorem scoreProject_append_monotone lower query p f t :
  (∀ a b, lower (a ++ b) = lower a ++ lower b) →
  lower [32] = [32] →
  f ≠ FName →
  (scoreProject lower query p ≤ scoreProject lower query (appendTo f t p))%nat.
Proof.
  intros Happ Hsp Hf. rewrite !scoreProject_guardedScore.
  by apply guardedScore_appendTo.
Qed.

Lemma toLowerCaseAscii_app a b :
  toLowerCaseAscii (a ++ b) = toLowerCaseAscii a ++ toLowerCaseAscii b.
Proof. apply fmap_app. Qed.

(** On ASCII text: a term of the query appended to a description. *)
Lemma scoreProject_append_monotone_witness :
  (scoreProject toLowerCaseAscii (js "Budget plan") unnamed
   ≤ scoreProject toLowerCaseAscii (js "Budget plan")
       (appendTo FDescription (js "budget") unnamed))%nat.
Proof.
  apply (scoreProject_append_monotone toLowerCaseAscii (js "Budget plan")
           unnamed FDescription (js "budget")).
  - exact toLowerCaseAscii_app.
  - reflexivity.
  - discriminate.
Defined.

(** The two conditions on the lowercasing are needed: where the final sigma
    is told from the small one, a term appended to the description turns the
    final sigma before it into a small one, and the occurrences of another
    term are lost. *)
Example scoreProject_append_sigma_decreases :
  js "x" ∈ terms (toLowerCaseSigma (js "ας ας x")) ∧
  toLowerCaseSigma (js "ΑΣ") = js "ας" ∧
  toLowerCaseSigma (js "ΑΣx") = js "ασx" ∧
  scoreProject toLowerCaseSigma (js "ας ας x") sigma = 2%nat ∧
  scoreProject toLowerCaseSigma (js "ας ας x")
    (appendTo FDescription (js "x") sigma) = 1%nat.
Proof.
  split; [vm_compute; do 2 right; left|]. repeat split; by vm_compute.
Qed.

(** C5 as claimed fails when the term is appended to the name: the name no
    longer appears in the query and the bonus is lost. *)
Lemma scoreProject_append_name_decreases :
  js "alpha" ∈ terms (toLowerCaseAscii (js "alpha")) ∧
  scoreProject toLowerCaseAscii (js "alpha") alpha = 4%nat ∧
  scoreProject toLowerCaseAscii (js "alpha")
    (appendTo FName (js "alpha") alpha) = 2%nat ∧
  ¬ (scoreProject toLowerCaseAscii (js "alpha") alpha
     ≤ scoreProject toLowerCaseAscii (js "alpha")
         (appendTo FName (js "alpha") alpha))%nat.
Proof.
  split; [vm_compute; left|].
  split; [by vm_compute|]. split; [by vm_compute|].
  vm_compute. lia.
Qed.

(** ** The chat endpoint *)

Lemma getTopContext_nil_iff lower projects query :
  getTopContext lower projects query 4 = [] ↔ projects = [].
Proof.
  rewrite <-!length_zero_iff_nil, getTopContext_length. unfold sliceEnd.
  simpl. lia.
Qed.

Lemma substring_app_l (x a b : jsstring) : substring x a → substring x (a ++ b).
Proof. intros (u & v & ->). exists u, (v ++ b). by rewrite <-!app_assoc. Qed.

Lemma substring_app_r (x a b : jsstring) : substring x b → substring x (a ++ b).
Proof. intros (u & v & ->). exists (a ++ u), v. by rewrite <-!app_assoc. Qed.

Lemma substring_refl (x : jsstring) : substring x x.
Proof. exists [], []. by rewrite app_nil_r. Qed.

Ltac find_substring :=
  lazymatch goal with
  | |- substring ?x ?x => apply substring_refl
  | |- substring ?x (?x ++ _) => apply substring_app_l, substring_refl
  | |- substring ?x (_ ++ ?b) => apply substring_app_r; find_substring
  end.

(** The path without a credential, as one equation. *)
Lemma api_chat_local lower projects provider c m h :
  api_chat lower projects [] provider (chatRequest (JString (c :: m)) h)
  = ([Ranked (c :: m) 4],
     Returned {| statusCode := 200;
                 json := ChatJson
                           (match head (getTopContext lower projects (c :: m) 4) with
                            | Some t => localReply t
                            | None => noLocalData
                            end)
                           (kpisOf (head (getTopContext lower projects (c :: m) 4)))
                           (js "local-fallback") |}).
Proof. reflexivity. Qed.

Lemma getTopContext_singleton lower p query k :
  1 ≤ k → getTopContext lower [p] query k = [p].
Proof.
  intros Hk. rewrite getTopContext_take. simpl.
  unfold sliceEnd. destruct (k <? 0) eqn:Hlt; [apply Z.ltb_lt in Hlt; lia|].
  replace (Z.to_nat (Z.min k (Z.of_nat 1))) with 1%nat by lia. done.
Qed.

(** C6: without a credential, every valid query is answered 200 with
    [usedModel = "local-fallback"]; with a top match the reply is the template
    holding its name, its status, the name of its responsible or "N/D" and its
    last update or "N/D", and [kpis] holds its status, progress, document
    count and last update; on an empty catalog the reply is the fixed message
    and [kpis] is null; for the one-record catalog of the example and the
    query "Alpha", [kpis.status] is "active" and the reply contains "Alpha"
    and "active" (and "Ana" and "2024-01-01"). *)
Theorem api_chat_local_fallback lower provider c m h :
  let query := c :: m in
  let shown (v : option jsstring) :=
    match v with Some s => s | None => js "undefined" end in
  let orND (v : option jsstring) :=
    match v with Some (x :: s) => x :: s | _ => js "N/D" end in
  let responsibleOrND (top : Project) :=
    match responsible top with
    | Some r => orND (resp_name r)
    | None => js "N/D"
    end in
  (∀ projects, ∃ reply kpis,
     api_chat lower projects [] provider (chatRequest (JString query) h)
     = ([Ranked query 4],
        Returned {| statusCode := 200;
                    json := ChatJson reply kpis (js "local-fallback") |})
     ∧ match getTopContext lower projects query 4 with
       | top :: _ =>
           reply
           = js "Según el contexto, el proyecto " ++ [34] ++ js "+"
             ++ shown (name top) ++ js "+" ++ [34] ++ js " está " ++ [34]
             ++ shown (status top) ++ [34] ++ js ". Responsable: "
             ++ responsibleOrND top ++ js ". Última actualización: "
             ++ orND (lastUpdate top) ++ js "."
           ∧ substring (shown (name top)) reply
           ∧ substring (shown (status top)) reply
           ∧ substring (responsibleOrND top) reply
           ∧ substring (orND (lastUpdate top)) reply
           ∧ kpis = Some (Kpis.mk (status top) (progress top)
                            (length (documents top)) (lastUpdate top))
       | [] =>
           projects = []
           ∧ reply = js "No hay datos locales para responder."
           ∧ kpis = None
       end)
  ∧ api_chat lower [] [] provider (chatRequest (JString query) h)
    = ([Ranked query 4],
       Returned {| statusCode := 200;
                   json := ChatJson (js "No hay datos locales para responder.")
                             None (js "local-fallback") |})
  ∧ ∃ reply kpis,
      api_chat lower [alpha] [] provider (chatRequest (JString (js "Alpha")) h)
      = ([Ranked (js "Alpha") 4],
         Returned {| statusCode := 200;
                     json := ChatJson reply (Some kpis) (js "local-fallback") |})
      ∧ reply
        = js "Según el contexto, el proyecto " ++ [34] ++ js "+Alpha+" ++ [34]
          ++ js " está " ++ [34] ++ js "active" ++ [34]
          ++ js ". Responsable: Ana. Última actualización: 2024-01-01."
      ∧ kpis = Kpis.mk (Some (js "active")) None O (Some (js "2024-01-01"))
      ∧ Kpis.status kpis = Some (js "active")
      ∧ substring (js "Alpha") reply
      ∧ substring (js "active") reply
      ∧ substring (js "Ana") reply
      ∧ substring (js "2024-01-01") reply.
Proof.
  intros query shown orND responsibleOrND. subst query.
  assert (Hreply : ∀ top,
            localReply top
            = js "Según el contexto, el proyecto " ++ [34] ++ js "+"
              ++ shown (name top) ++ js "+" ++ [34] ++ js " está " ++ [34]
              ++ shown (status top) ++ [34] ++ js ". Responsable: "
              ++ responsibleOrND top ++ js ". Última actualización: "
              ++ orND (lastUpdate top) ++ js ".").
  { intros top. unfold localReply, responsibleAndName, responsibleOrND.
    by destruct (responsible top). }
  split; [|split].
  - intros projects. eexists _, _. split; [apply api_chat_local|].
    destruct (getTopContext lower projects (c :: m) 4) as [|top rest] eqn:Hctx.
    + apply getTopContext_nil_iff in Hctx. by cbn [head kpisOf fmap option_fmap option_map].
    + cbn [head]. split; [apply Hreply|]. rewrite Hreply.
      repeat (split; [find_substring|]). reflexivity.
  - rewrite api_chat_local.
    by rewrite (proj2 (getTopContext_nil_iff lower [] (c :: m)) eq_refl).
  - exists (localReply alpha),
      (Kpis.mk (status alpha) (progress alpha) (length (documents alpha))
         (lastUpdate alpha)).
    split.
    { change (js "Alpha") with (65 :: js "lpha").
      rewrite api_chat_local, getTopContext_singleton by lia. reflexivity. }
    split; [by vm_compute|]. split; [reflexivity|]. split; [reflexivity|].
    repeat split; apply includes_substring; by vm_compute.
Qed.

(** The path with a credential, up to the provider's answer. *)
Lemma api_chat_provider lower projects key provider c k m h :
  api_chat lower projects (k :: key) provider (chatRequest (JString (c :: m)) h)
  = let ctx := getTopContext lower projects (c :: m) 4 in
    match provider (completionRequest (c :: m) ctx) with
    | Resolves completion =>
        ([Ranked (c :: m) 4; CompletionCreated (completionRequest (c :: m) ctx)],
         Returned {| statusCode := 200;
                     json := ChatJson
                               (orElse (completionText completion)
                                  (js "No pude generar una respuesta."))
                               (kpisOf (head ctx)) (js "gpt-4o-mini") |})
    | Rejects err =>
        ([Ranked (c :: m) 4; CompletionCreated (completionRequest (c :: m) ctx);
          ConsoleError err],
         Returned {| statusCode := 500;
                     json := ErrorJson (js "Fallo interno de chat") |})
    | ResolvesUnusable _ =>
        ([Ranked (c :: m) 4; CompletionCreated (completionRequest (c :: m) ctx);
          ConsoleError TypeError],
         Returned {| statusCode := 500;
                     json := ErrorJson (js "Fallo interno de chat") |})
    end.
Proof.
  cbv zeta. unfold api_chat, createCompletion. cbn [messageOf chatRequest body message].
  by destruct (provider _).
Qed.

(** C7: on the provider path, when the call to the provider is rejected
    (network error, HTTP status, malformed response or timeout), the answer
    is 500 with the body [{ error: "Fallo interno de chat" }]; the provider
    was called once, and the body holds no reply, kpis or usedModel. *)
Theorem api_chat_provider_failure lower projects key provider c m h err :
  key ≠ [] →
  provider (completionRequest (c :: m)
              (getTopContext lower projects (c :: m) 4)) = Rejects err →
  api_chat lower projects key provider (chatRequest (JString (c :: m)) h)
  = ([Ranked (c :: m) 4;
      CompletionCreated (completionRequest (c :: m)
                           (getTopContext lower projects (c :: m) 4));
      ConsoleError err],
     Returned {| statusCode := 500;
                 json := ErrorJson (js "Fallo interno de chat") |}).
Proof.
  intros Hkey Hrej. destruct key as [|k key]; [done|].
  rewrite api_chat_provider. cbv zeta. by rewrite Hrej.
Qed.

(** A provider that times out, on a two-record catalog. *)
Lemma api_chat_provider_failure_witness :
  api_chat toLowerCaseAscii [alpha; stalled] (js "sk-test")
    (λ _, Rejects Timeout) (chatRequest (JString (js "Alpha")) JUndefined)
  = ([Ranked (js "Alpha") 4;
      CompletionCreated (completionRequest (js "Alpha") [alpha; stalled]);
      ConsoleError Timeout],
     Returned {| statusCode := 500;
                 json := ErrorJson (js "Fallo interno de chat") |}).
Proof.
  change (js "Alpha") with (65 :: js "lpha").
  replace [alpha; stalled]
    with (getTopContext toLowerCaseAscii [alpha; stalled] (65 :: js "lpha") 4)
    at 2 by (by vm_compute).
  apply (api_chat_provider_failure toLowerCaseAscii [alpha; stalled]
           (js "sk-test") (λ _, Rejects Timeout) 65 (js "lpha") JUndefined Timeout).
  - discriminate.
  - reflexivity.
Defined.

(** C8: when [message] is missing or is not a string, the answer is 400 with
    the body [{ error: "Mensaje inválido" }], and neither the ranking nor the
    provider was called. *)
Theorem api_chat_invalid_input lower projects key provider req :
  (∀ s, messageOf req ≠ JString s) →
  api_chat lower projects key provider req
  = ([], Returned {| statusCode := 400;
                     json := ErrorJson (js "Mensaje inválido") |}).
Proof.
  intros Hmsg. unfold api_chat.
  destruct (messageOf req) as [| | | |s|]; try reflexivity.
  by destruct (Hmsg s).
Qed.

(** A request without a body, and one whose message is a number. *)
Lemma api_chat_invalid_input_witness :
  api_chat toLowerCaseAscii [alpha] (js "sk-test") (λ _, Rejects Timeout)
    {| body := None |}
  = ([], Returned {| statusCode := 400;
                     json := ErrorJson (js "Mensaje inválido") |})
  ∧ api_chat toLowerCaseAscii [alpha] [] (λ _, Rejects Timeout)
      (chatRequest (JNumber 7) JUndefined)
    = ([], Returned {| statusCode := 400;
                       json := ErrorJson (js "Mensaje inválido") |}).
Proof.
  split.
  - apply (api_chat_invalid_input toLowerCaseAscii [alpha] (js "sk-test")
             (λ _, Rejects Timeout) {| body := None |}).
    simpl. discriminate.
  - apply (api_chat_invalid_input toLowerCaseAscii [alpha] []
             (λ _, Rejects Timeout) (chatRequest (JNumber 7) JUndefined)).
    simpl. discriminate.
Defined.

(** C9: the request whose [message] is the empty string, a present string,
    is answered 400 with [{ error: "Mensaje inválido" }] and is not ranked,
    while every request whose [message] is a non-empty string is ranked. *)
Theorem api_chat_empty_message lower projects key provider h :
  messageOf (chatRequest (JString []) h) = JString []
  ∧ api_chat lower projects key provider (chatRequest (JString []) h)
    = ([], Returned {| statusCode := 400;
                       json := ErrorJson (js "Mensaje inválido") |})
  ∧ ∀ c m, ∃ rest out,
      api_chat lower projects key provider (chatRequest (JString (c :: m)) h)
      = (Ranked (c :: m) 4 :: rest, out).
Proof.
  split; [reflexivity|]. split; [reflexivity|].
  intros c m. destruct key as [|k key].
  - rewrite api_chat_local. by eexists _, _.
  - rewrite api_chat_provider. cbv zeta.
    destruct (provider _); by eexists _, _.
Qed.




(** The three fallbacks end to end: the provider is sent "N/D" for the
    record [stalled], and the reply carries its raw progress 0. *)
Example api_chat_stalled :
  ∃ req text,
    api_chat toLowerCaseAscii [stalled] (js "sk-test")
      (λ _, Resolves {| choices := None |})
      (chatRequest (JString (js "Beta")) JUndefined)
    = ([Ranked (js "Beta") 4; CompletionCreated req],
       Returned {| statusCode := 200;
                   json := ChatJson text
                             (Some (Kpis.mk (Some (js "paused")) (Some 0) 1
                                      (Some [])))
                             (js "gpt-4o-mini") |})
    ∧ content <$> messages req = [system; userContent (js "Beta") [stalled]]
    ∧ substring (js "Avance: N/D%") (userContent (js "Beta") [stalled])
    ∧ substring (js "Responsable: N/D") (userContent (js "Beta") [stalled])
    ∧ text = js "No pude generar una respuesta.".
Proof.
  eexists _, _. split; [by vm_compute|]. split; [by vm_compute|].
  split; [|split]; [| |done]; apply includes_substring; by vm_compute.
Qed.

(** * Further properties *)

(** ** Counting occurrences *)

Lemma regExpExec_includes t s :
  is_Some (regExpExec {| re_source := t |} s) ↔ includes s t = true.
Proof.
  induction s as [|c s IH]; simpl.
  - destruct (startsWith t []); simpl; [by split; eauto|].
    split; [by intros [? ?]|done].
  - destruct (startsWith t (c :: s)); simpl; [by split; eauto|]. apply IH.
Qed.

Lemma occurrences_pos t s :
  t ≠ [] → (0 < occurrences t s)%nat ↔ substring t s.
Proof.
  intros Ht. rewrite <-includes_substring, <-regExpExec_includes.
  rewrite (occurrences_regExpExec t s Ht).
  destruct (regExpExec _ s); split.
  - by eauto.
  - lia.
  - lia.
  - by intros [? ?].
Qed.

Lemma occurrences_skip_bound t k s :
  (occurrences_skip t k s * length t ≤ length s - k)%nat.
Proof.
  revert k. induction s as [|c s IH]; intros k; [simpl; lia|].
  destruct k as [|k]; cbn [occurrences_skip length].
  - destruct (bool_decide (t `prefix_of` c :: s)) eqn:Hp.
    + apply bool_decide_eq_true, prefix_length in Hp. simpl in Hp.
      specialize (IH (length t - 1)%nat). nia.
    + specialize (IH O). lia.
  - specialize (IH k). lia.
Qed.

(** X1: a term counts for the score exactly when it occurs in the text. *)
Theorem occur_positive_iff_substring term text :
  term ≠ [] → (0 < occur term text)%nat ↔ substring term text.
Proof.
  intros Ht. rewrite occur_occurrences by done. by apply occurrences_pos.
Qed.

Lemma occur_positive_iff_substring_witness :
  (0 < occur (js "a.c") (js "xa.cx"))%nat ↔ substring (js "a.c") (js "xa.cx").
Proof. apply (occur_positive_iff_substring (js "a.c") (js "xa.cx")). discriminate. Defined.

(** X2: the matches counted do not overlap: together they are no longer than
    the text. *)
Theorem occur_non_overlapping term text :
  term ≠ [] → (occur term text * length term ≤ length text)%nat.
Proof.
  intros Ht. rewrite occur_occurrences by done.
  pose proof (occurrences_skip_bound term O text). unfold occurrences. lia.
Qed.

Lemma occur_non_overlapping_witness :
  (occur (js "aa") (js "aaaaa") * length (js "aa") ≤ length (js "aaaaa"))%nat.
Proof. apply (occur_non_overlapping (js "aa") (js "aaaaa")). discriminate. Defined.

(** ** The score at its edges *)

Lemma sum_list_with_zero {A} (g : A → nat) l :
  sum_list_with g l = O ↔ Forall (λ x, g x = O) l.
Proof.
  induction l as [|x l IH]; [by split; [constructor|]|].
  change (sum_list_with g (x :: l)) with (g x + sum_list_with g l)%nat.
  rewrite Forall_cons, <-IH. lia.
Qed.

(** X3: the score is 0 exactly when no term of the query occurs in the
    searchable text and the name earns no bonus. *)
Theorem scoreProject_zero_iff lower query p :
  scoreProject lower query p = O ↔
  (∀ t, t ∈ terms (lower query) → ¬ substring t (searchableText lower p))
  ∧ ¬ (∃ n, name p = Some n ∧ n ≠ [] ∧ substring (lower n) (lower query)).
Proof.
  rewrite scoreProject_guardedScore. unfold guardedScore, termScore.
  assert (Hterms :
    sum_list_with (λ t, occurrences t (searchableText lower p))
      (terms (lower query)) = O
    ↔ ∀ t, t ∈ terms (lower query) → ¬ substring t (searchableText lower p)).
  { rewrite sum_list_with_zero, Forall_forall. split; intros H t Ht.
    - pose proof (proj1 (terms_space_free _ _ Ht)) as Hne.
      rewrite <-(occurrences_pos t _ Hne). specialize (H t Ht). simpl in H. lia.
    - pose proof (proj1 (terms_space_free _ _ Ht)) as Hne.
      specialize (H t Ht). rewrite <-(occurrences_pos t _ Hne) in H. lia. }
  rewrite <-Hterms. clear Hterms.
  destruct (name p) as [n|].
  - destruct (bool_decide (n ≠ []) && appearsIn (lower n) (lower query)) eqn:Hb.
    + apply andb_true_iff in Hb as [Hn%bool_decide_eq_true Hs%appearsIn_substring].
      split; [lia|]. intros [_ Hno]. destruct Hno. by exists n.
    + split; [|lia]. intros H0. split; [lia|].
      intros (n' & [= <-] & Hn & Hs%appearsIn_substring).
      by rewrite Hs, bool_decide_eq_true_2 in Hb.
  - split; [|lia]. intros H0. split; [lia|]. by intros (n' & [=] & _).
Qed.

Lemma pieces_whitespace s :
  Forall (λ c, isWhiteSpace c = true) s → terms s = [].
Proof.
  unfold terms. induction 1 as [|c s Hc _ IH]; simpl.
  - by rewrite filter_cons_False by (by intros []).
  - rewrite Hc. by rewrite filter_cons_False by (by intros []).
Qed.

(** X4: a query that lowercases to white space only has no terms: each
    record scores the name bonus and nothing else, 0 or 3. *)
Theorem scoreProject_blank_query lower query p :
  Forall (λ c, isWhiteSpace c = true) (lower query) →
  scoreProject lower query p =
    match name p with
    | Some (c :: n) => if includes (lower query) (lower (c :: n)) then 3%nat else O
    | _ => O
    end.
Proof.
  intros Hws. unfold scoreProject.
  rewrite foldl_scoreStep, split_ws_terms, pieces_whitespace by done.
  by destruct (name p) as [[|c n]|]; [|destruct (includes _ _)|].
Qed.

Lemma scoreProject_blank_query_witness :
  scoreProject toLowerCaseAscii (js "  ") alpha = O.
Proof.
  apply (scoreProject_blank_query toLowerCaseAscii (js "  ") alpha).
  vm_compute. by repeat constructor.
Defined.

Lemma pieces_app_whitespace a w b :
  isWhiteSpace w = true → pieces (a ++ w :: b) = pieces a ++ pieces b.
Proof.
  intros Hw. induction a as [|c a IH]; simpl.
  - by rewrite Hw.
  - destruct (isWhiteSpace c); [by rewrite IH|]. rewrite IH.
    destruct (pieces_cons a) as (x & xs & ->). done.
Qed.

Lemma terms_app_whitespace a w b :
  isWhiteSpace w = true → terms (a ++ w :: b) = terms a ++ terms b.
Proof.
  intros Hw. unfold terms. by rewrite pieces_app_whitespace, filter_app.
Qed.

(** X5: for a record without a name, the score of two queries joined by a
    space is the sum of their scores, where lowercasing distributes over
    concatenation and keeps the space: each word of the query counts on its
    own, as often as it is written. *)
Theorem scoreProject_query_additive lower a b p :
  (∀ x y, lower (x ++ y) = lower x ++ lower y) →
  lower [32] = [32] →
  truthy (name p) = false →
  scoreProject lower (a ++ [32] ++ b) p
  = (scoreProject lower a p + scoreProject lower b p)%nat.
Proof.
  intros Happ Hsp Hname. unfold scoreProject.
  rewrite !foldl_scoreStep, !split_ws_terms.
  rewrite !Happ, Hsp. cbn [app].
  rewrite terms_app_whitespace by done. rewrite sum_list_with_app.
  destruct (name p) as [[|c n]|]; try done; lia.
Qed.

Lemma scoreProject_query_additive_witness :
  scoreProject toLowerCaseAscii (js "budget" ++ [32] ++ js "Review budget") unnamed
  = (scoreProject toLowerCaseAscii (js "budget") unnamed
     + scoreProject toLowerCaseAscii (js "Review budget") unnamed)%nat.
Proof.
  apply (scoreProject_query_additive toLowerCaseAscii (js "budget")
           (js "Review budget") unnamed).
  - exact toLowerCaseAscii_app.
  - reflexivity.
  - reflexivity.
Defined.

(** ** The ranking *)

Lemma StronglySorted_take {A} (R : A → A → Prop) n (l : list A) :
  StronglySorted R l → StronglySorted R (take n l).
Proof.
  intros Hs. rewrite <-(take_drop n l) in Hs.
  by apply StronglySorted_app_1_l in Hs.
Qed.

(** X6: the records come out in descending order of score. *)
Theorem getTopContext_descending lower projects query k :
  StronglySorted
    (λ a b, scoreProject lower query b ≤ scoreProject lower query a)%nat
    (getTopContext lower projects query k).
Proof.
  rewrite getTopContext_take. apply StronglySorted_take.
  apply (Array_sort_descending (scoreProject lower query)).
Qed.

(** X7: for [k >= 0] the result has exactly [min k n] records of the [n] in
    the catalog. *)
Theorem getTopContext_length_min lower projects query k :
  0 ≤ k →
  length (getTopContext lower projects query k)
  = Nat.min (Z.to_nat k) (length projects).
Proof.
  intros Hk. rewrite getTopContext_length. unfold sliceEnd.
  destruct (k <? 0) eqn:Hlt; [apply Z.ltb_lt in Hlt|]; lia.
Qed.

Lemma getTopContext_length_min_witness :
  length (getTopContext toLowerCaseAscii [alpha; unnamed; stalled] (js "active") 2)
  = Nat.min (Z.to_nat 2) (length [alpha; unnamed; stalled]).
Proof.
  apply (getTopContext_length_min toLowerCaseAscii [alpha; unnamed; stalled]
           (js "active") 2).
  lia.
Defined.

(** X8: the records returned are the best ones: with the records left out
    they make up the catalog, and none left out scores more than one
    returned. *)
Theorem getTopContext_best lower projects query k :
  ∃ rest,
    getTopContext lower projects query k ++ rest ≡ₚ projects
    ∧ ∀ x y, x ∈ getTopContext lower projects query k → y ∈ rest →
        (scoreProject lower query y ≤ scoreProject lower query x)%nat.
Proof.
  rewrite getTopContext_take.
  set (sorted := Array_sort _ projects).
  set (n := sliceEnd k (length projects)).
  exists (drop n sorted). split.
  - rewrite take_drop. apply Array_sort_Permutation.
  - intros x y Hx Hy.
    pose proof (Array_sort_descending (scoreProject lower query) projects) as Hs.
    fold sorted in Hs. rewrite <-(take_drop n sorted) in Hs.
    by apply (StronglySorted_app_1_elem_of _ _ _ x y) in Hs.
Qed.

(** X9: when [k] is at least the size of the catalog every record is
    returned, whatever its score: there is no relevance floor. *)
Theorem getTopContext_all lower projects query k :
  Z.of_nat (length projects) ≤ k →
  getTopContext lower projects query k ≡ₚ projects.
Proof.
  intros Hk. rewrite getTopContext_take.
  rewrite take_ge.
  - apply Array_sort_Permutation.
  - rewrite Array_sort_length. unfold sliceEnd.
    destruct (k <? 0) eqn:Hlt; [apply Z.ltb_lt in Hlt|]; lia.
Qed.

Lemma getTopContext_all_witness :
  getTopContext toLowerCaseAscii [alpha; unnamed; stalled] (js "zebra") 4
  ≡ₚ [alpha; unnamed; stalled].
Proof.
  apply (getTopContext_all toLowerCaseAscii [alpha; unnamed; stalled]
           (js "zebra") 4).
  simpl. lia.
Defined.

(** X10: a larger [k] extends the result: for [0 <= k <= k'] the result for
    [k] is a prefix of the result for [k']. *)
Theorem getTopContext_prefix lower projects query k k' :
  0 ≤ k → k ≤ k' →
  getTopContext lower projects query k
  `prefix_of` getTopContext lower projects query k'.
Proof.
  intros Hk Hk'. rewrite !getTopContext_take.
  set (sorted := Array_sort _ projects).
  assert (Hn : (sliceEnd k (length projects) ≤ sliceEnd k' (length projects))%nat).
  { unfold sliceEnd.
    destruct (k <? 0) eqn:H1; [apply Z.ltb_lt in H1; lia|].
    destruct (k' <? 0) eqn:H2; [apply Z.ltb_lt in H2; lia|]. lia. }
  exists (drop (sliceEnd k (length projects))
            (take (sliceEnd k' (length projects)) sorted)).
  rewrite <-(take_drop (sliceEnd k (length projects))
               (take (sliceEnd k' (length projects)) sorted)) at 1.
  f_equal. rewrite take_take. f_equal. lia.
Qed.

Lemma getTopContext_prefix_witness :
  getTopContext toLowerCaseAscii [alpha; unnamed; stalled] (js "active") 1
  `prefix_of`
  getTopContext toLowerCaseAscii [alpha; unnamed; stalled] (js "active") 4.
Proof.
  apply (getTopContext_prefix toLowerCaseAscii [alpha; unnamed; stalled]
           (js "active") 1 4); lia.
Defined.

(** X11: a catalog that is already in descending order of score is cut, not
    reordered; so when no record matches the query, or all score the same,
    the result is the first records of the catalog. *)
Theorem getTopContext_sorted_catalog lower projects query k :
  StronglySorted
    (λ a b, scoreProject lower query b ≤ scoreProject lower query a)%nat
    projects →
  getTopContext lower projects query k
  = take (sliceEnd k (length projects)) projects.
Proof.
  intros Hs. rewrite getTopContext_take. f_equal. symmetry.
  by apply (Array_sort_unique (scoreProject lower query)).
Qed.

Lemma getTopContext_sorted_catalog_witness :
  getTopContext toLowerCaseAscii [alpha; unnamed; stalled] (js "zebra") 2
  = [alpha; unnamed].
Proof.
  apply (getTopContext_sorted_catalog toLowerCaseAscii
           [alpha; unnamed; stalled] (js "zebra") 2).
  repeat constructor; vm_compute; lia.
Defined.

(** X12: on a catalog that is not empty and for [k >= 1], the first record
    returned has the highest score of the catalog, and is the first record of
    the catalog with that score. *)
Theorem getTopContext_head lower projects query k :
  projects ≠ [] → 1 ≤ k →
  ∃ top,
    head (getTopContext lower projects query k) = Some top
    ∧ (∀ p, p ∈ projects →
         (scoreProject lower query p ≤ scoreProject lower query top)%nat)
    ∧ head (filter (λ p, scoreProject lower query p
                         = scoreProject lower query top) projects) = Some top.
Proof.
  intros Hne Hk. rewrite getTopContext_take.
  pose proof (Array_sort_descending (scoreProject lower query) projects) as Hs.
  pose proof (Array_sort_Permutation
                (λ a b, Z.of_nat (scoreProject lower query b)
                        - Z.of_nat (scoreProject lower query a)) projects) as Hp.
  pose proof (λ v, Array_sort_filter (scoreProject lower query) v projects) as Hf.
  destruct (Array_sort _ projects) as [|top rest].
  { apply Permutation_nil_l in Hp. by destruct Hne. }
  exists top. split; [|split].
  - assert (sliceEnd k (length projects) ≠ O) as Hn.
    { unfold sliceEnd. destruct projects; [done|]. simpl length.
      destruct (k <? 0) eqn:Hlt; [apply Z.ltb_lt in Hlt|]; lia. }
    by destruct (sliceEnd k (length projects)).
  - intros p Hin. rewrite <-Hp in Hin.
    apply StronglySorted_cons in Hs as [Hall _]. rewrite Forall_forall in Hall.
    apply elem_of_cons in Hin as [->|Hin]; [done|]. by apply Hall.
  - rewrite <-Hf. by rewrite filter_cons_True.
Qed.

Lemma getTopContext_head_witness :
  ∃ top,
    head (getTopContext toLowerCaseAscii [unnamed; alpha; stalled]
            (js "Alpha") 4) = Some top
    ∧ (∀ p, p ∈ [unnamed; alpha; stalled] →
         (scoreProject toLowerCaseAscii (js "Alpha") p
          ≤ scoreProject toLowerCaseAscii (js "Alpha") top)%nat)
    ∧ head (filter (λ p, scoreProject toLowerCaseAscii (js "Alpha") p
                         = scoreProject toLowerCaseAscii (js "Alpha") top)
              [unnamed; alpha; stalled]) = Some top.
Proof.
  apply (getTopContext_head toLowerCaseAscii [unnamed; alpha; stalled]
           (js "Alpha") 4); [discriminate|lia].
Defined.

(** ** Trimming the provider's text *)

Lemma trimStart_head s u :
  head (trimStart s) = Some u → isWhiteSpace u = false.
Proof.
  induction s as [|c s IH]; simpl; [done|].
  destruct (isWhiteSpace c) eqn:Hc; [done|]. simpl. by intros [= <-].
Qed.

Lemma trimStart_suffix s : ∃ w, s = w ++ trimStart s.
Proof.
  induction s as [|c s [w IH]]; simpl; [by exists []|].
  destruct (isWhiteSpace c); [|by exists []].
  exists (c :: w). simpl. by f_equal.
Qed.

Lemma trimStart_whitespace s :
  Forall (λ c, isWhiteSpace c = true) s → trimStart s = [].
Proof. induction 1 as [|c s Hc _ IH]; simpl; [done|]. by rewrite Hc. Qed.

Lemma trimStart_app_whitespace w s :
  Forall (λ c, isWhiteSpace c = true) w → trimStart (w ++ s) = trimStart s.
Proof. induction 1 as [|c w Hc _ IH]; simpl; [done|]. by rewrite Hc. Qed.

Lemma trimStart_id s u : head s = Some u → isWhiteSpace u = false → trimStart s = s.
Proof. destruct s as [|c s]; [done|]. simpl. intros [= ->] ->. done. Qed.

Lemma trim_head s u : head (trim s) = Some u → isWhiteSpace u = false.
Proof.
  unfold trim. rewrite head_reverse.
  destruct (trimStart_suffix (reverse (trimStart s))) as [w Hw].
  intros Hlast.
  assert (last (reverse (trimStart s)) = Some u) as Hl.
  { rewrite Hw, last_app. by rewrite Hlast. }
  rewrite last_reverse in Hl. by apply trimStart_head in Hl.
Qed.

Lemma trim_last s u : last (trim s) = Some u → isWhiteSpace u = false.
Proof. unfold trim. rewrite last_reverse. apply trimStart_head. Qed.

Lemma trim_whitespace s :
  Forall (λ c, isWhiteSpace c = true) s → trim s = [].
Proof. intros Hs. unfold trim. by rewrite (trimStart_whitespace s Hs). Qed.

Lemma trim_core w1 core w2 u v :
  Forall (λ c, isWhiteSpace c = true) w1 →
  Forall (λ c, isWhiteSpace c = true) w2 →
  head core = Some u → isWhiteSpace u = false →
  last core = Some v → isWhiteSpace v = false →
  trim (w1 ++ core ++ w2) = core.
Proof.
  intros Hw1 Hw2 Hu Hnu Hv Hnv. unfold trim.
  rewrite trimStart_app_whitespace by done.
  rewrite (trimStart_id (core ++ w2) u); [|by rewrite head_app, Hu|done].
  rewrite reverse_app, trimStart_app_whitespace
    by (by rewrite Forall_reverse).
  rewrite (trimStart_id (reverse core) v); [|by rewrite head_reverse|done].
  apply reverse_involutive.
Qed.

(** ** The chat endpoint, whatever the request *)

Lemma api_chat_valid lower projects key provider req c m :
  messageOf req = JString (c :: m) →
  api_chat lower projects key provider req
  = api_chat lower projects key provider (chatRequest (JString (c :: m)) JUndefined).
Proof. intros Hm. unfold api_chat. by rewrite Hm. Qed.

Lemma api_chat_invalid lower projects key provider req :
  (∀ c m, messageOf req ≠ JString (c :: m)) →
  api_chat lower projects key provider req
  = ([], Returned {| statusCode := 400;
                     json := ErrorJson (js "Mensaje inválido") |}).
Proof.
  intros Hm. unfold api_chat.
  destruct (messageOf req) as [| | | |[|c m]|]; try reflexivity.
  by destruct (Hm c m).
Qed.

Lemma messageOf_valid_dec req :
  (∃ c m, messageOf req = JString (c :: m))
  ∨ (∀ c m, messageOf req ≠ JString (c :: m)).
Proof.
  destruct (messageOf req) as [| | | |[|c m]|]; try (by right).
  left. by exists c, m.
Qed.

(** X13: on a catalog of records as [Project] has them, the handler always
    answers, with 200, 400 or 500: 400 exactly when the message is not a
    non-empty string, 500 exactly when the message is valid, a credential is
    configured and the provider call is rejected or resolves with an answer
    that cannot be read (no completion, or a content that is neither absent
    nor a string). *)
Theorem api_chat_status lower projects key provider req :
  ∃ tr resp,
    api_chat lower projects key provider req = (tr, Returned resp)
    ∧ (statusCode resp = 200 ∨ statusCode resp = 400 ∨ statusCode resp = 500)
    ∧ (statusCode resp = 400 ↔ ∀ c m, messageOf req ≠ JString (c :: m))
    ∧ (statusCode resp = 500 ↔
       ∃ c m,
         messageOf req = JString (c :: m) ∧ key ≠ []
         ∧ ((∃ err, provider (completionRequest (c :: m)
                                (getTopContext lower projects (c :: m) 4))
                    = Rejects err)
            ∨ (∃ v, provider (completionRequest (c :: m)
                                (getTopContext lower projects (c :: m) 4))
                    = ResolvesUnusable v))).
Proof.
  destruct (messageOf_valid_dec req) as [(c & m & Hm)|Hm].
  - rewrite (api_chat_valid _ _ _ _ _ c m Hm).
    destruct key as [|k key].
    + rewrite api_chat_local. eexists _, _. split; [done|]. simpl.
      split; [by left|]. split.
      * split; [done|]. intros H. by destruct (H c m).
      * split; [done|]. by intros (? & ? & _ & ? & _).
    + rewrite api_chat_provider. cbv zeta.
      destruct (provider _) as [completion|err|v] eqn:Hp.
      * eexists _, _. split; [done|]. simpl. split; [by left|]. split.
        -- split; [done|]. intros H. by destruct (H c m).
        -- split; [done|]. intros (c' & m' & Hm' & _ & Hbad).
           rewrite Hm in Hm'. injection Hm' as <- <-.
           rewrite Hp in Hbad. by destruct Hbad as [[? ?]|[? ?]].
      * eexists _, _. split; [done|]. simpl. split; [by right; right|]. split.
        -- split; [done|]. intros H. by destruct (H c m).
        -- split; [|done]. intros _. exists c, m.
           split; [done|]. split; [done|]. left. by exists err.
      * eexists _, _. split; [done|]. simpl. split; [by right; right|]. split.
        -- split; [done|]. intros H. by destruct (H c m).
        -- split; [|done]. intros _. exists c, m.
           split; [done|]. split; [done|]. right. by exists v.
  - rewrite api_chat_invalid by done. eexists _, _. split; [done|]. simpl.
    split; [by right; left|]. split; [done|].
    split; [done|]. intros (c & m & Hm' & _). by destruct (Hm c m).
Qed.

(** X14: the catalog is ranked once for a valid message and never for an
    invalid one; the provider is called once for a valid message when a
    credential is configured, and never otherwise. *)
Theorem api_chat_calls lower projects key provider req :
  rankings (api_chat lower projects key provider req).1
  = match messageOf req with
    | JString (_ :: _) => 1%nat
    | _ => O
    end
  ∧ providerCalls (api_chat lower projects key provider req).1
    = match messageOf req, key with
      | JString (_ :: _), _ :: _ => 1%nat
      | _, _ => O
      end.
Proof.
  destruct (messageOf_valid_dec req) as [(c & m & Hm)|Hm].
  - rewrite (api_chat_valid _ _ _ _ _ c m Hm), Hm.
    destruct key as [|k key].
    + by rewrite api_chat_local.
    + rewrite api_chat_provider. cbv zeta. by destruct (provider _).
  - rewrite api_chat_invalid by done.
    by destruct (messageOf req) as [| | | |[|c m]|]; [..|destruct (Hm c m)|].
Qed.

(** X15: whenever a reply is sent, its kpis are those of the first ranked
    record of the catalog (null on an empty ranking), with or without a
    credential and whatever the provider answered; the model named is
    "local-fallback" without a credential and "gpt-4o-mini" with one. *)
Theorem api_chat_kpis_local lower projects key provider req tr status reply kpis
    usedModel :
  api_chat lower projects key provider req
  = (tr, Returned {| statusCode := status;
                     json := ChatJson reply kpis usedModel |}) →
  ∃ c m,
    messageOf req = JString (c :: m)
    ∧ status = 200
    ∧ kpis = kpisOf (head (getTopContext lower projects (c :: m) 4))
    ∧ usedModel = match key with
                  | [] => js "local-fallback"
                  | _ :: _ => js "gpt-4o-mini"
                  end.
Proof.
  destruct (messageOf_valid_dec req) as [(c & m & Hm)|Hm].
  - rewrite (api_chat_valid _ _ _ _ _ c m Hm). destruct key as [|k key].
    + rewrite api_chat_local. intros [= <- <- <- <- <-]. by exists c, m.
    + rewrite api_chat_provider. cbv zeta. destruct (provider _); [|done|done].
      intros [= <- <- <- <- <-]. by exists c, m.
  - by rewrite api_chat_invalid.
Qed.

Lemma api_chat_kpis_local_witness :
  ∃ c m,
    messageOf (chatRequest (JString (js "Beta")) JNull) = JString (c :: m)
    ∧ 200 = 200
    ∧ Some (Kpis.mk (Some (js "paused")) (Some 0) 1%nat (Some []))
      = kpisOf (head (getTopContext toLowerCaseAscii [stalled] (c :: m) 4))
    ∧ js "gpt-4o-mini" = js "gpt-4o-mini".
Proof.
  apply (api_chat_kpis_local toLowerCaseAscii [stalled] (js "sk-test")
           (λ _, Resolves (completionOf (js " ok ") []))
           (chatRequest (JString (js "Beta")) JNull)
           [Ranked (js "Beta") 4;
            CompletionCreated (completionRequest (js "Beta") [stalled])]
           200 (js "ok")).
  by vm_compute.
Defined.

Lemma orElse_trim_shape s fallback u :
  fallback ≠ [] →
  (head fallback = Some u → isWhiteSpace u = false) →
  (last fallback = Some u → isWhiteSpace u = false) →
  orElse (trim <$> s) fallback ≠ []
  ∧ (head (orElse (trim <$> s) fallback) = Some u → isWhiteSpace u = false)
  ∧ (last (orElse (trim <$> s) fallback) = Some u → isWhiteSpace u = false).
Proof.
  intros Hne Hh Hl. destruct s as [s|]; [|done]. simpl.
  destruct (trim s) as [|c r] eqn:Ht; [done|].
  rewrite <-Ht. split; [by rewrite Ht|].
  split; [apply trim_head|apply trim_last].
Qed.

Lemma completionText_trim completion :
  ∃ s, completionText completion = trim <$> s.
Proof.
  unfold completionText.
  destruct (choices completion) as [[|first more]|]; try (by exists None).
  destruct (choice_message first) as [msg|]; [|by exists None].
  by exists (msg_content msg).
Qed.

(** X16: when the provider answers, the reply sent is never empty and
    carries no white space at either end. *)
Theorem api_chat_provider_reply_trimmed lower projects k key provider c m h
    completion :
  provider (completionRequest (c :: m)
              (getTopContext lower projects (c :: m) 4)) = Resolves completion →
  ∃ reply,
    api_chat lower projects (k :: key) provider (chatRequest (JString (c :: m)) h)
    = ([Ranked (c :: m) 4;
        CompletionCreated (completionRequest (c :: m)
                             (getTopContext lower projects (c :: m) 4))],
       Returned {| statusCode := 200;
                   json := ChatJson reply
                             (kpisOf (head (getTopContext lower projects
                                              (c :: m) 4)))
                             (js "gpt-4o-mini") |})
    ∧ reply ≠ []
    ∧ (∀ u, head reply = Some u → isWhiteSpace u = false)
    ∧ (∀ u, last reply = Some u → isWhiteSpace u = false).
Proof.
  intros Hp. rewrite api_chat_provider. cbv zeta. rewrite Hp.
  eexists. split; [reflexivity|].
  destruct (completionText_trim completion) as [s ->].
  split; [apply (orElse_trim_shape s _ 0)|split; intros u];
    try apply (orElse_trim_shape s _ u);
    try done; try (by intros [= <-]); vm_compute; by intros [= <-].
Qed.

Lemma api_chat_provider_reply_trimmed_witness :
  ∃ reply,
    api_chat toLowerCaseAscii [stalled] (js "sk-test")
      (λ _, Resolves (completionOf (js "  En pausa. ") []))
      (chatRequest (JString (js "Beta")) JUndefined)
    = ([Ranked (js "Beta") 4;
        CompletionCreated (completionRequest (js "Beta")
                             (getTopContext toLowerCaseAscii [stalled]
                                (js "Beta") 4))],
       Returned {| statusCode := 200;
                   json := ChatJson reply
                             (kpisOf (head (getTopContext toLowerCaseAscii
                                              [stalled] (js "Beta") 4)))
                             (js "gpt-4o-mini") |})
    ∧ reply ≠ []
    ∧ (∀ u, head reply = Some u → isWhiteSpace u = false)
    ∧ (∀ u, last reply = Some u → isWhiteSpace u = false).
Proof.
  change (js "Beta") with (66 :: js "eta").
  change (js "sk-test") with (115 :: js "k-test").
  apply (api_chat_provider_reply_trimmed toLowerCaseAscii [stalled] 115
           (js "k-test") (λ _, Resolves (completionOf (js "  En pausa. ") []))
           66 (js "eta") JUndefined (completionOf (js "  En pausa. ") [])).
  reflexivity.
Defined.

(** X17: when the provider's answer holds no text (no choices, no message,
    no content, or white space only) the reply is the fixed
    "No pude generar una respuesta.". *)
Theorem api_chat_provider_no_text lower projects k key provider c m h completion :
  provider (completionRequest (c :: m)
              (getTopContext lower projects (c :: m) 4)) = Resolves completion →
  (choices completion = None
   ∨ choices completion = Some []
   ∨ ∃ first more,
       choices completion = Some (first :: more)
       ∧ (choice_message first = None
          ∨ ∃ msg, choice_message first = Some msg
                   ∧ (msg_content msg = None
                      ∨ ∃ s, msg_content msg = Some s
                             ∧ Forall (λ u, isWhiteSpace u = true) s))) →
  api_chat lower projects (k :: key) provider (chatRequest (JString (c :: m)) h)
  = ([Ranked (c :: m) 4;
      CompletionCreated (completionRequest (c :: m)
                           (getTopContext lower projects (c :: m) 4))],
     Returned {| statusCode := 200;
                 json := ChatJson (js "No pude generar una respuesta.")
                           (kpisOf (head (getTopContext lower projects
                                            (c :: m) 4)))
                           (js "gpt-4o-mini") |}).
Proof.
  intros Hp Hno. rewrite api_chat_provider. cbv zeta. rewrite Hp.
  do 3 f_equal. unfold completionText.
  destruct Hno as [->|[->|(first & more & -> & Hfirst)]]; [done|done|].
  destruct Hfirst as [->|(msg & -> & Hmsg)]; [done|].
  destruct Hmsg as [->|(s & -> & Hs)]; [done|].
  simpl. by rewrite trim_whitespace.
Qed.

Lemma api_chat_provider_no_text_witness :
  api_chat toLowerCaseAscii [stalled] (js "sk-test")
    (λ _, Resolves (completionOf (js "  ") []))
    (chatRequest (JString (js "Beta")) JUndefined)
  = ([Ranked (js "Beta") 4;
      CompletionCreated (completionRequest (js "Beta")
                           (getTopContext toLowerCaseAscii [stalled]
                              (js "Beta") 4))],
     Returned {| statusCode := 200;
                 json := ChatJson (js "No pude generar una respuesta.")
                           (kpisOf (head (getTopContext toLowerCaseAscii
                                            [stalled] (js "Beta") 4)))
                           (js "gpt-4o-mini") |}).
Proof.
  change (js "Beta") with (66 :: js "eta").
  change (js "sk-test") with (115 :: js "k-test").
  apply (api_chat_provider_no_text toLowerCaseAscii [stalled] 115
           (js "k-test") (λ _, Resolves (completionOf (js "  ") []))
           66 (js "eta") JUndefined (completionOf (js "  ") [])).
  - reflexivity.
  - right. right. eexists _, _. split; [reflexivity|]. right.
    eexists. split; [reflexivity|]. right. eexists. split; [reflexivity|].
    vm_compute. by repeat constructor.
Defined.

(** X18: white space around the provider's text is dropped and the text
    between is sent as it is. *)
Theorem api_chat_provider_reply_core lower projects k key provider c m h
    w1 core w2 more u v :
  provider (completionRequest (c :: m)
              (getTopContext lower projects (c :: m) 4))
  = Resolves (completionOf (w1 ++ core ++ w2) more) →
  Forall (λ x, isWhiteSpace x = true) w1 →
  Forall (λ x, isWhiteSpace x = true) w2 →
  head core = Some u → isWhiteSpace u = false →
  last core = Some v → isWhiteSpace v = false →
  api_chat lower projects (k :: key) provider (chatRequest (JString (c :: m)) h)
  = ([Ranked (c :: m) 4;
      CompletionCreated (completionRequest (c :: m)
                           (getTopContext lower projects (c :: m) 4))],
     Returned {| statusCode := 200;
                 json := ChatJson core
                           (kpisOf (head (getTopContext lower projects
                                            (c :: m) 4)))
                           (js "gpt-4o-mini") |}).
Proof.
  intros Hp Hw1 Hw2 Hu Hnu Hv Hnv. rewrite api_chat_provider. cbv zeta.
  rewrite Hp. do 3 f_equal. unfold completionText, completionOf.
  cbn [choices choice_message msg_content fmap option_fmap option_map].
  rewrite (trim_core w1 core w2 u v) by done.
  by destruct core.
Qed.

Lemma api_chat_provider_reply_core_witness :
  api_chat toLowerCaseAscii [stalled] (js "sk-test")
    (λ _, Resolves (completionOf ([10; 32] ++ js "En pausa." ++ [32]) []))
    (chatRequest (JString (js "Beta")) JUndefined)
  = ([Ranked (js "Beta") 4;
      CompletionCreated (completionRequest (js "Beta")
                           (getTopContext toLowerCaseAscii [stalled]
                              (js "Beta") 4))],
     Returned {| statusCode := 200;
                 json := ChatJson (js "En pausa.")
                           (kpisOf (head (getTopContext toLowerCaseAscii
                                            [stalled] (js "Beta") 4)))
                           (js "gpt-4o-mini") |}).
Proof.
  change (js "Beta") with (66 :: js "eta").
  change (js "sk-test") with (115 :: js "k-test").
  apply (api_chat_provider_reply_core toLowerCaseAscii [stalled] 115
           (js "k-test")
           (λ _, Resolves (completionOf ([10; 32] ++ js "En pausa." ++ [32]) []))
           66 (js "eta") JUndefined [10; 32] (js "En pausa.") [32] [] 69 46).
  - reflexivity.
  - by repeat constructor.
  - by repeat constructor.
  - reflexivity.
  - reflexivity.
  - reflexivity.
  - reflexivity.
Defined.

(** X19: with a credential and an empty catalog the provider is still
    called: the context it is sent is the placeholder "—", and the kpis of
    the reply are null. *)
Theorem api_chat_provider_empty_catalog lower k key provider c m h :
  ∃ req tr out,
    api_chat lower [] (k :: key) provider (chatRequest (JString (c :: m)) h)
    = (Ranked (c :: m) 4 :: CompletionCreated req :: tr, out)
    ∧ content <$> messages req
      = [system;
         js "Pregunta: " ++ (c :: m) ++ nl ++ nl
         ++ js "Contexto de proyectos:" ++ nl ++ js "—"]
    ∧ ∀ status reply kpis usedModel,
        out = Returned {| statusCode := status;
                          json := ChatJson reply kpis usedModel |} →
        kpis = None.
Proof.
  rewrite api_chat_provider. cbv zeta.
  rewrite (proj2 (getTopContext_nil_iff lower [] (c :: m)) eq_refl).
  destruct (provider _); eexists _, _, _; (split; [reflexivity|]);
    (split; [reflexivity|]).
  - by intros ???? [= <- <- <- <-].
  - done.
  - done.
Qed.

(** ** The block of a record *)

Lemma join_nil_iff sep (l : list jsstring) :
  sep ≠ [] → join sep l = [] ↔ l = [] ∨ l = [[]].
Proof.
  intros Hsep. destruct l as [|x [|y l]].
  - by split; [left|].
  - simpl. split; [intros ->; by right|]. by intros [|[= ->]].
  - change (join sep (x :: y :: l)) with (x ++ sep ++ join sep (y :: l)).
    split; [|by intros [|]].
    intros H. apply app_eq_nil in H as [_ H]. apply app_eq_nil in H as [H _].
    done.
Qed.

(** X20: the block of a record shows "—" for its documents exactly when the
    joined titles are empty, that is when the record has no document or a
    single document without a title; two or more documents always show their
    titles and the separators, even when all the titles are missing. *)
Theorem documentTitles_fallback p :
  (documentTitles p = [] ↔
   documents p = [] ∨ ∃ d, documents p = [d] ∧ default [] (title d) = [])
  ∧ (documentTitles p = [] →
     orElse (Some (documentTitles p)) (js "—") = js "—")
  ∧ (documentTitles p ≠ [] →
     orElse (Some (documentTitles p)) (js "—") = documentTitles p).
Proof.
  split; [|split].
  - unfold documentTitles. rewrite join_nil_iff by done. split.
    + intros [H|H].
      * left. by apply fmap_nil_inv in H.
      * right. destruct (documents p) as [|d [|d' l]]; [done| |done].
        exists d. by injection H.
    + intros [->|(d & -> & Hd)]; [by left|]. right. simpl. by rewrite Hd.
  - by intros ->.
  - by destruct (documentTitles p).
Qed.

(** Two documents without titles: the separator is shown, not "—". *)
Lemma documentTitles_fallback_witness :
  orElse (Some (documentTitles drafts)) (js "—") = js ", ".
Proof.
  apply (proj2 (proj2 (documentTitles_fallback drafts))). discriminate.
Defined.

(** ** Escaping a term *)

(** X21: escaping never loses or alters a term: the escaped pattern always
    compiles, to the term itself read code unit by code unit, whatever
    syntax characters the term holds; and a term without syntax characters
    is its own pattern. *)
Theorem escapeRegExp_round_trip term :
  RegExp_new (escapeRegExp term) = Some {| re_source := term |}
  ∧ (Forall (λ c, isSyntaxCharacter c = false) term → escapeRegExp term = term).
Proof.
  split.
  - unfold RegExp_new. by rewrite parsePattern_escapeRegExp.
  - induction 1 as [|c t Hc _ IH]; simpl; [done|]. by rewrite Hc, IH.
Qed.

Lemma escapeRegExp_round_trip_witness :
  escapeRegExp (js "plan-2024") = js "plan-2024".
Proof.
  apply (proj2 (escapeRegExp_round_trip (js "plan-2024"))).
  vm_compute. by repeat constructor.
Defined.
